(** * Network anomaly detection notebook: a shallow embedding

    The repository is one linear notebook,
    [Final_Anomaly_Detection_Project.ipynb].  Its five code cells load a
    table, label-encode and standardise it, score it with an isolation forest
    and with an autoencoder; the fifth, which is to print two classification
    reports, does not compile.

    Conventions of the embedding:
    - numbers are real numbers ([R]): the arithmetic of the notebook is read
      in exact arithmetic, so rounding is outside the model;
    - a pandas [DataFrame] is a column store (ordered association list from
      column labels to typed columns) living in a heap of objects, because
      the notebook holds two names ([df], [df_encoded]) for frames and
      mutates one of them in place;
    - a notebook cell is a computation in a state-and-exception monad; an
      exception stops the run and leaves the heap as mutated so far;
    - calls into scikit-learn and Keras whose result is decided by a fitted
      model (tree building, gradient descent) are parameters of the
      development; the thin deterministic shell around them ([LabelEncoder],
      [StandardScaler], the percentile offset and the sign test of
      [IsolationForest.predict], [np.mean], [np.std]) is written out. *)

From Stdlib Require Import Reals Lra Lia ZArith QArith String List.
From Stdlib Require Import Permutation Sorted Finite.
From stdpp Require Import base option list gmap strings.

Import ListNotations.
Local Open Scope R_scope.

(** The Python exceptions that reach the top level of a cell. *)
Inductive exn : Type :=
  | NameError
  | KeyError
  | ValueError
  | SyntaxError.

(** ** NumPy reductions over one-dimensional arrays *)

Definition np_sum (a : list R) : R := fold_right Rplus 0 a.

(** [np.mean(a)]: the sum divided by the number of elements. *)
Definition np_mean (a : list R) : R := np_sum a / INR (length a).

(** [np.var(a)] with the default [ddof=0]: the mean of the squared
    deviations from the mean. *)
Definition np_var (a : list R) : R :=
  np_mean (map (fun x => (x - np_mean a) * (x - np_mean a)) a).

(** [np.std(a)] with the default [ddof=0]. *)
Definition np_std (a : list R) : R := sqrt (np_var a).

(** ** Cell 4, last lines: the reconstruction-error threshold

    [threshold = np.mean(mse) + 3 * np.std(mse)]
    [df_encoded['anomaly_autoencoder'] = (mse > threshold).astype(int)] *)

Definition threshold (mse : list R) : R := np_mean mse + 3 * np_std mse.

Definition gt_astype_int (x t : R) : Z := if Rlt_dec t x then 1%Z else 0%Z.

Definition anomaly_autoencoder (mse : list R) : list Z :=
  map (fun e => gt_astype_int e (threshold mse)) mse.

(** [astype(int)] on a boolean array. *)
Definition bool_astype_int (b : bool) : Z := if b then 1%Z else 0%Z.

(** ** pandas: typed columns and frames

    A column ([Series]) carries its dtype.  [read_csv] infers [int64] or
    [float64] for a column whose fields all parse as numbers and [object]
    (Python strings) otherwise.  A [float64] cell is a finite number or one
    of the two infinities, which [read_csv] parses from the fields [inf] and
    [-inf].  Missing fields are outside the model: what scikit-learn does
    with them depends on its version. *)

Inductive float64 : Type :=
  | finite (x : R)
  | infinity (negative : bool).

Inductive Series : Type :=
  | Int64 (v : list Z)
  | Float64 (v : list float64)
  | Object (v : list string).

(** The cells of an [int64] column lie within 64 bits: [read_csv] gives a
    column with an integer field beyond them the dtype [object].  No cell of
    a column of strings is one of the strings [read_csv] takes for a missing
    field (its default [na_values]). *)
Definition in_int64 (z : Z) : Prop := (- 2 ^ 63 <= z < 2 ^ 63)%Z.

Definition na_values : list string :=
  [EmptyString; "#N/A"; "#N/A N/A"; "#NA"; "-1.#IND"; "-1.#QNAN"; "-NaN";
   "-nan"; "1.#IND"; "1.#QNAN"; "<NA>"; "N/A"; "NA"; "NULL"; "NaN"; "None";
   "n/a"; "nan"; "null"]%string.

Definition is_na (x : string) : bool := existsb (String.eqb x) na_values.

Definition parsed_column (c : Series) : Prop :=
  match c with
  | Int64 v => Forall in_int64 v
  | Float64 _ => True
  | Object v => Forall (fun x => is_na x = false) v
  end.

Definition is_finite (x : float64) : Prop :=
  match x with
  | finite _ => True
  | infinity _ => False
  end.

Definition finite_column (c : Series) : Prop :=
  match c with
  | Float64 v => Forall is_finite v
  | _ => True
  end.

Definition Series_len (c : Series) : nat :=
  match c with
  | Int64 v => length v
  | Float64 v => length v
  | Object v => length v
  end.

Definition is_object (c : Series) : bool :=
  match c with Object _ => true | _ => false end.

(** Column labels: integers for the columns [read_csv(header=None)] creates,
    strings for the result columns the notebook adds. *)
Inductive label : Type :=
  | LInt (n : Z)
  | LStr (s : string).

#[global] Instance label_eq_dec : EqDecision label.
Proof. solve_decision. Defined.

(** The columns are kept in order; [index_len] is [len(df.index)]. *)
Record DataFrame : Type := mkDataFrame {
  index_len : nat;
  columns : list (label * Series)
}.

Fixpoint get_column (k : label) (cs : list (label * Series)) : option Series :=
  match cs with
  | [] => None
  | (k', c) :: cs' => if decide (k = k') then Some c else get_column k cs'
  end.

(** Assignment to a column keeps the position of an existing label and
    appends a new one. *)
Fixpoint set_column (k : label) (v : Series) (cs : list (label * Series))
  : list (label * Series) :=
  match cs with
  | [] => [(k, v)]
  | (k', c) :: cs' =>
      if decide (k = k') then (k', v) :: cs' else (k', c) :: set_column k v cs'
  end.

Definition drop_column (k : label) (cs : list (label * Series))
  : list (label * Series) :=
  List.filter (fun kc => negb (bool_decide (fst kc = k))) cs.

(** The parsed content of the data file, as [read_csv] has inferred it: its
    columns in file order.  [read_csv(header=None)] labels them 0, 1, 2,
    ... *)
Record raw_table : Type := mkRawTable {
  n_rows : nat;
  fields : list Series
}.

Definition rectangular (F : raw_table) : Prop :=
  Forall (fun c => Series_len c = n_rows F) (fields F).

(** An input table of the notebook: the parsed content of a file with at
    least one line ([read_csv] raises [EmptyDataError] before any frame
    exists on a file without lines, which [read_csv] below leaves out) and
    at least 42 fields in every line, the data file having 41 features and
    the label; its columns are as the parser types them. *)
Definition input_table (F : raw_table) : Prop :=
  rectangular F
  /\ (1 <= n_rows F)%nat
  /\ (42 <= length (fields F))%nat
  /\ Forall parsed_column (fields F).

(** No field of the file is [inf] or [-inf]. *)
Definition finite_fields (F : raw_table) : Prop :=
  Forall finite_column (fields F).

Fixpoint label_from (i : nat) (cs : list Series) : list (label * Series) :=
  match cs with
  | [] => []
  | c :: cs' => (LInt (Z.of_nat i), c) :: label_from (S i) cs'
  end.

Definition header_none (F : raw_table) : DataFrame :=
  mkDataFrame (n_rows F) (label_from 0 (fields F)).

(** A frame as pandas builds it: every column as long as the index, no label
    twice. *)
Definition wf_frame (d : DataFrame) : Prop :=
  Forall (fun kc => Series_len (snd kc) = index_len d) (columns d)
  /\ List.NoDup (map fst (columns d)).

(** ** NumPy two-dimensional arrays, row-major *)

Definition matrix : Type := list (list R).

Definition column_of (j : nat) (X : matrix) : list R :=
  map (fun r => nth j r 0) X.

Definition shape (X : matrix) : nat * nat :=
  (length X, length (hd [] X)).

(** [np.asarray] on a frame followed by the finiteness test, as
    [check_array] does them: every column becomes [float64], rows are read
    across the columns.  A column of strings cannot be converted, and an
    infinite cell is refused; both raise [ValueError].  The arrays of the
    model ([matrix]) therefore hold finite numbers only. *)
Fixpoint finite_values (v : list float64) : option (list R) :=
  match v with
  | [] => Some []
  | finite x :: v' =>
      match finite_values v' with
      | Some xs => Some (x :: xs)
      | None => None
      end
  | infinity _ :: _ => None
  end.

Definition Series_to_float (c : Series) : exn + list R :=
  match c with
  | Int64 v => inr (map IZR v)
  | Float64 v =>
      match finite_values v with
      | Some xs => inr xs
      | None => inl ValueError
      end
  | Object _ => inl ValueError
  end.

Fixpoint columns_to_float (cs : list (label * Series)) : exn + list (list R) :=
  match cs with
  | [] => inr []
  | (_, c) :: cs' =>
      match Series_to_float c with
      | inl e => inl e
      | inr v =>
          match columns_to_float cs' with
          | inl e => inl e
          | inr vs => inr (v :: vs)
          end
      end
  end.

Definition rows_across (n : nat) (vs : list (list R)) : matrix :=
  map (fun i => map (fun v => nth i v 0) vs) (seq 0 n).

Definition to_numpy (d : DataFrame) : exn + matrix :=
  match columns_to_float (columns d) with
  | inl e => inl e
  | inr vs => inr (rows_across (index_len d) vs)
  end.

(** ** scikit-learn: [LabelEncoder]

    [fit_transform] sorts the distinct values ([classes_]) and replaces each
    value by its position in that list. *)

Section Unique.
Context {A : Type} (cmp : A -> A -> comparison).

Fixpoint insert_unique (x : A) (l : list A) : list A :=
  match l with
  | [] => [x]
  | y :: l' =>
      match cmp x y with
      | Lt => x :: l
      | Eq => l
      | Gt => y :: insert_unique x l'
      end
  end.

Definition np_unique (v : list A) : list A := fold_right insert_unique [] v.

Fixpoint searchsorted (x : A) (l : list A) : nat :=
  match l with
  | [] => 0
  | y :: l' =>
      match cmp x y with
      | Eq => 0
      | _ => S (searchsorted x l')
      end
  end.

Definition encode (v : list A) : list Z :=
  let classes_ := np_unique v in
  map (fun x => Z.of_nat (searchsorted x classes_)) v.
End Unique.

Definition R_compare (x y : R) : comparison :=
  match total_order_T x y with
  | inleft (left _) => Lt
  | inleft (right _) => Eq
  | inright _ => Gt
  end.

Definition float64_compare (x y : float64) : comparison :=
  match x, y with
  | finite a, finite b => R_compare a b
  | infinity true, infinity true => Eq
  | infinity false, infinity false => Eq
  | infinity true, _ => Lt
  | _, infinity true => Gt
  | _, infinity false => Lt
  | infinity false, _ => Gt
  end.

Definition LabelEncoder_fit_transform (y : Series) : Series :=
  match y with
  | Object v => Int64 (encode String.compare v)
  | Int64 v => Int64 (encode Z.compare v)
  | Float64 v => Int64 (encode float64_compare v)
  end.

(** ** scikit-learn: [StandardScaler]

    [fit] takes the mean and the variance (ddof 0) of every column.  A
    column counts as constant when its variance is at most
    [n_samples * eps * var + (n_samples * mean * eps) ** 2], [eps] being the
    machine epsilon of [float64] ([_is_constant_feature]); the scale of a
    constant column is set to one ([_handle_zeros_in_scale] with that mask),
    the scale of any other column is its standard deviation.  A constant
    column is therefore only centred.  [transform] subtracts [mean_] from
    and divides by [scale_] every row.  [check_array] refuses an array
    without rows or without columns; its finiteness test has been passed
    when the array was converted ([to_numpy]). *)

Definition float64_eps : R := / IZR (2 ^ 52).

Definition is_constant_feature (var mean : R) (n_samples : nat) : bool :=
  let upper_bound :=
    INR n_samples * float64_eps * var
    + (INR n_samples * mean * float64_eps) * (INR n_samples * mean * float64_eps) in
  if Rle_dec var upper_bound then true else false.

Definition handle_zeros_in_scale (scale : R) (constant_mask : bool) : R :=
  if constant_mask then 1 else scale.

Record StandardScaler : Type := mkStandardScaler {
  mean_ : list R;
  scale_ : list R
}.

(** The scale [fit] gives a column. *)
Definition scale_of (c : list R) : R :=
  handle_zeros_in_scale (sqrt (np_var c))
    (is_constant_feature (np_var c) (np_mean c) (length c)).

Definition StandardScaler_fit (X : matrix) : StandardScaler :=
  let n_features := snd (shape X) in
  {| mean_ := map (fun j => np_mean (column_of j X)) (seq 0 n_features);
     scale_ := map (fun j => scale_of (column_of j X)) (seq 0 n_features) |}.

Definition standardize (x : R) (ms : R * R) : R := (x - fst ms) / snd ms.

Definition StandardScaler_transform_row (sc : StandardScaler) (r : list R)
  : list R :=
  map (fun xms => standardize (fst xms) (snd xms))
      (combine r (combine (mean_ sc) (scale_ sc))).

Definition StandardScaler_transform (sc : StandardScaler) (X : matrix) : matrix :=
  map (StandardScaler_transform_row sc) X.

Definition check_array (X : matrix) : exn + matrix :=
  match shape X with
  | (O, _) => inl ValueError
  | (_, O) => inl ValueError
  | _ => inr X
  end.

Definition StandardScaler_fit_transform (d : DataFrame) : exn + matrix :=
  match to_numpy d with
  | inl e => inl e
  | inr X0 =>
      match check_array X0 with
      | inl e => inl e
      | inr X => inr (StandardScaler_transform (StandardScaler_fit X) X)
      end
  end.

(** ** NumPy: [np.percentile] with the default linear interpolation *)

Fixpoint insert_sorted (x : R) (l : list R) : list R :=
  match l with
  | [] => [x]
  | y :: l' => if Rle_dec x y then x :: l else y :: insert_sorted x l'
  end.

Definition np_sort (a : list R) : list R := fold_right insert_sorted [] a.

Definition lerp (a b t : R) : R := a + (b - a) * t.

Definition np_percentile (a : list R) (q : R) : R :=
  let n := length a in
  let virtual_index := q / 100 * INR (n - 1) in
  let previous := Z.to_nat (Int_part virtual_index) in
  let next := Nat.min (previous + 1) (n - 1) in
  let gamma := virtual_index - INR previous in
  let arr := np_sort a in
  lerp (nth previous arr 0) (nth next arr 0) gamma.

(** ** scikit-learn: the decision rule of [IsolationForest]

    With a numeric [contamination], [fit] sets [offset_] to the percentile
    [100 * contamination] of the training scores; [decision_function] is the
    score minus [offset_]; [predict] answers [-1] where the decision function
    is negative and [+1] elsewhere. *)

Definition decision_function (offset_ : R) (scores : list R) : list R :=
  map (fun sc => sc - offset_) scores.

Definition is_inlier (d : R) : Z := if Rlt_dec d 0 then (-1)%Z else 1%Z.

Definition predict_from_scores (contamination : R) (scores : list R) : list Z :=
  let offset_ := np_percentile scores (100 * contamination) in
  map is_inlier (decision_function offset_ scores).

(** ** Keras: [tf.keras.losses.mse], the mean over the last axis of the
    squared difference

    The two arrays of cell 4 have the same shape, the last layer of the
    network being as wide as its input; the conversion of [y_true] to the
    precision of the predictions is rounding, which is outside the model. *)

Definition squared_difference (ab : R * R) : R :=
  (snd ab - fst ab) * (snd ab - fst ab).

Definition losses_mse (y_true y_pred : matrix) : list R :=
  map (fun tp => np_mean (map squared_difference (combine (fst tp) (snd tp))))
      (combine y_true y_pred).

(** ** scikit-learn: the figures of [classification_report]

    For every class present in either argument: precision, recall, F1 and
    support; a ratio with denominator zero is reported as zero.  Arrays of
    different lengths, and two empty arrays, raise [ValueError].  The
    printed averages are not modelled.  The two calls stand in cell 5. *)

Record class_metrics : Type := mkMetrics {
  class_label : Z;
  precision : Q;
  recall : Q;
  f1_score : Q;
  support : nat
}.

Definition count_where (f : Z * Z -> bool) (pairs : list (Z * Z)) : nat :=
  length (List.filter f pairs).

Definition ratio (a b : nat) : Q :=
  match b with
  | O => 0%Q
  | S _ => Qmake (Z.of_nat a) (Pos.of_nat b)
  end.

Definition metrics_of_class (pairs : list (Z * Z)) (c : Z) : class_metrics :=
  let tp := count_where (fun tp => Z.eqb (fst tp) c && Z.eqb (snd tp) c) pairs in
  let predicted := count_where (fun tp => Z.eqb (snd tp) c) pairs in
  let actual := count_where (fun tp => Z.eqb (fst tp) c) pairs in
  {| class_label := c;
     precision := ratio tp predicted;
     recall := ratio tp actual;
     f1_score := ratio (2 * tp) (predicted + actual);
     support := actual |}.

Definition classification_report (y_true y_pred : list Z)
  : exn + list class_metrics :=
  if Nat.eqb (length y_true) (length y_pred) then
    match y_true with
    | [] => inl ValueError
    | _ :: _ =>
        let pairs := combine y_true y_pred in
        inr (map (metrics_of_class pairs)
                 (np_unique Z.compare (y_true ++ y_pred)))
    end
  else inl ValueError.

(** Elementwise comparisons of a column with a scalar. *)
Definition Series_ne_str (c : Series) (s : string) : list bool :=
  match c with
  | Object v => map (fun x => negb (String.eqb x s)) v
  | Int64 v => map (fun _ => true) v
  | Float64 v => map (fun _ => true) v
  end.

(** The first statement written in cell 5: the ground truth,
    [(df[41] != 'normal.').astype(int)]. *)
Definition true_label (raw : Series) : list Z :=
  map bool_astype_int (Series_ne_str raw "normal.").

(** ** The session: a heap of frames and the ambient random source *)

Definition loc : Type := nat.

(** The [random_state] argument of a scikit-learn estimator. *)
Inductive random_state_arg : Type :=
  | rs_None
  | rs_int (seed : Z).

Record IsolationForest : Type := mkIsolationForest {
  contamination : R;
  random_state : random_state_arg
}.

(** What the notebook takes from scikit-learn's tree builder and from Keras.
    [World] is the state of the process-wide random generators. *)
Record externals : Type := mkExternals {
  World : Type;
  RandomState : Type;
  (** [np.random.RandomState(seed)] *)
  RandomState_seed : Z -> RandomState;
  (** the process-wide generator, advanced by each use *)
  global_RandomState : World -> RandomState * World;
  (** [IsolationForest]: the fitted ensemble and its per-row score *)
  Forest : Type;
  grow_forest : RandomState -> matrix -> Forest;
  forest_score : Forest -> list R -> R;
  (** Keras: building, compiling and fitting the network draws the initial
      weights and the shuffling order from the process-wide generators;
      [predict] maps every row through the fitted network *)
  Model : Type;
  keras_fit : matrix -> World -> Model * World;
  keras_predict : Model -> list R -> list R
}.

Section Notebook.

Context (L : externals).

Record session : Type := mkSession {
  frames : gmap loc DataFrame;
  entropy : World L
}.

(** A cell body: it returns a value or raises, and leaves a session. *)
Definition py (A : Type) : Type := session -> (exn + A) * session.

Definition ret {A} (a : A) : py A := fun s => (inr a, s).

Definition raise {A} (e : exn) : py A := fun s => (inl e, s).

Definition bind {A B} (m : py A) (f : A -> py B) : py B :=
  fun s =>
    match m s with
    | (inl e, s') => (inl e, s')
    | (inr a, s') => f a s'
    end.

Definition lift {A} (r : exn + A) : py A := fun s => (r, s).

Notation "x <- m ;; k" := (bind m (fun x => k))
  (at level 62, m at next level, right associativity).
Notation "m ;;; k" := (bind m (fun _ => k))
  (at level 62, right associativity).

Fixpoint for_each {A} (l : list A) (body : A -> py unit) : py unit :=
  match l with
  | [] => ret tt
  | x :: l' => body x ;;; for_each l' body
  end.

(** *** Frames in the heap *)

Definition new_frame (d : DataFrame) : py loc :=
  fun s =>
    let l := fresh (dom (frames s)) in
    (inr l, mkSession (<[l := d]> (frames s)) (entropy s)).

Definition get_frame (l : loc) : py DataFrame :=
  fun s =>
    match frames s !! l with
    | Some d => (inr d, s)
    | None => (inl NameError, s)
    end.

Definition put_frame (l : loc) (d : DataFrame) : py unit :=
  fun s => (inr tt, mkSession (<[l := d]> (frames s)) (entropy s)).

(** [pd.read_csv(..., header=None)] on a file with at least one line: the
    parsed table becomes a new frame. *)
Definition read_csv (F : raw_table) : py loc := new_frame (header_none F).

(** [df.copy()] (deep): a new frame with the same content. *)
Definition DataFrame_copy (l : loc) : py loc :=
  d <- get_frame l ;; new_frame d.

(** [df[k]] *)
Definition getitem (l : loc) (k : label) : py Series :=
  d <- get_frame l ;;
  match get_column k (columns d) with
  | Some c => ret c
  | None => raise KeyError
  end.

(** [df[k] = v] for a NumPy array [v], as in cells 2, 3 and 4, in place;
    the array must be as long as the index. *)
Definition setitem (l : loc) (k : label) (v : Series) : py unit :=
  d <- get_frame l ;;
  if decide (Series_len v = index_len d) then
    put_frame l (mkDataFrame (index_len d) (set_column k v (columns d)))
  else raise ValueError.

(** [df.select_dtypes(include=['object']).columns] *)
Definition select_dtypes_object (l : loc) : py (list label) :=
  d <- get_frame l ;;
  ret (map fst (List.filter (fun kc => is_object (snd kc)) (columns d))).

(** [df.drop(columns=[k])]: a new frame value; an absent label raises. *)
Definition DataFrame_drop (l : loc) (k : label) : py DataFrame :=
  d <- get_frame l ;;
  match get_column k (columns d) with
  | Some _ => ret (mkDataFrame (index_len d) (drop_column k (columns d)))
  | None => raise KeyError
  end.

(** *** Estimators *)

(** [check_random_state]: an integer seeds a generator of its own, [None]
    hands out the process-wide one. *)
Definition check_random_state (a : random_state_arg) : py (RandomState L) :=
  match a with
  | rs_int seed => ret (RandomState_seed L seed)
  | rs_None =>
      fun s =>
        let (g, w) := global_RandomState L (entropy s) in
        (inr g, mkSession (frames s) w)
  end.

Definition IsolationForest_fit_predict (est : IsolationForest) (X : matrix)
  : py (list Z) :=
  X <- lift (check_array X) ;;
  g <- check_random_state (random_state est) ;;
  let estimators_ := grow_forest L g X in
  let scores := map (forest_score L estimators_) X in
  ret (predict_from_scores (contamination est) scores).

Definition Sequential_fit (X : matrix) : py (Model L) :=
  fun s =>
    let (m, w) := keras_fit L X (entropy s) in
    (inr m, mkSession (frames s) w).

(** *** The cells of the notebook *)

(** Cell 2: encode and normalise. *)
Definition cell_preprocess (df : loc) : py (loc * matrix) :=
  df_encoded <- DataFrame_copy df ;;
  cols <- select_dtypes_object df_encoded ;;
  for_each cols (fun col =>
    y <- getitem df_encoded col ;;
    setitem df_encoded col (LabelEncoder_fit_transform y)) ;;;
  features <- DataFrame_drop df_encoded (LInt 41) ;;
  X_scaled <- lift (StandardScaler_fit_transform features) ;;
  ret (df_encoded, X_scaled).

Definition iso_forest : IsolationForest :=
  {| contamination := 5 / 100; random_state := rs_int 42 |}.

(** Cell 3: the isolation forest. *)
Definition cell_iforest (df_encoded : loc) (X_scaled : matrix) : py (list Z) :=
  anomaly_iforest <- IsolationForest_fit_predict iso_forest X_scaled ;;
  setitem df_encoded (LStr "anomaly_iforest") (Int64 anomaly_iforest) ;;;
  ret anomaly_iforest.

(** Cell 4: the autoencoder.  The value is the error array [mse] together
    with the labels derived from it. *)
Definition cell_autoencoder (df_encoded : loc) (X_scaled : matrix)
  : py (list R * list Z) :=
  autoencoder <- Sequential_fit X_scaled ;;
  let reconstructions := map (keras_predict L autoencoder) X_scaled in
  let mse := losses_mse X_scaled reconstructions in
  setitem df_encoded (LStr "anomaly_autoencoder")
          (Int64 (anomaly_autoencoder mse)) ;;;
  ret (mse, anomaly_autoencoder mse).

(** Cell 5: ground truth and the two reports.  The source of the cell has
    a line break inside the string literal of each of its two bare [print]
    calls ([print("Isolation Forest:] and, on the next line, [")]), so
    Python refuses the whole cell when it compiles it: the cell raises
    [SyntaxError] and none of its statements runs.  No [true_label] column
    is written and no report is computed. *)
Definition cell_evaluate (df df_encoded : loc)
  : py (list class_metrics * list class_metrics) :=
  raise SyntaxError.

(** *** The notebook, cell after cell *)

Record outputs : Type := mkOutputs {
  out_df : loc;
  out_df_encoded : loc;
  out_X_scaled : matrix;
  out_anomaly_iforest : list Z;
  out_mse : list R;
  out_anomaly_autoencoder : list Z;
  out_reports : list class_metrics * list class_metrics
}.

Definition run_to_cell2 (T : raw_table) : py (loc * (loc * matrix)) :=
  df <- read_csv T ;;
  r <- cell_preprocess df ;;
  ret (df, r).

Definition run_to_cell3 (T : raw_table) : py (loc * (loc * matrix) * list Z) :=
  r <- run_to_cell2 T ;;
  a <- cell_iforest (fst (snd r)) (snd (snd r)) ;;
  ret (r, a).

Definition run_to_cell4 (T : raw_table)
  : py (loc * (loc * matrix) * list Z * (list R * list Z)) :=
  r <- run_to_cell3 T ;;
  b <- cell_autoencoder (fst (snd (fst r))) (snd (snd (fst r))) ;;
  ret (r, b).

Definition notebook (T : raw_table) : py outputs :=
  r <- run_to_cell4 T ;;
  let df := fst (fst (fst r)) in
  let df_encoded := fst (snd (fst (fst r))) in
  reports <- cell_evaluate df df_encoded ;;
  ret {| out_df := df;
         out_df_encoded := df_encoded;
         out_X_scaled := snd (snd (fst (fst r)));
         out_anomaly_iforest := snd (fst r);
         out_mse := fst (snd r);
         out_anomaly_autoencoder := snd (snd r);
         out_reports := reports |}.

End Notebook.

Arguments ret {L A} a.
Arguments raise {L A} e.
Arguments bind {L A B} m f.
Arguments lift {L A} r.
Arguments for_each {L A} l body.
Arguments frames {L} s.
Arguments entropy {L} s.
Arguments mkSession {L} frames entropy.

(** ** Closed forms of the loops, used to state what the cells compute *)

(** The effect of the encoding loop of cell 2 on the columns: every column
    of strings is replaced by its codes, the others are kept. *)
Definition encode_column (kc : label * Series) : label * Series :=
  (fst kc,
   if is_object (snd kc) then LabelEncoder_fit_transform (snd kc) else snd kc).

Definition encode_columns (cs : list (label * Series)) : list (label * Series) :=
  map encode_column cs.

Definition object_labels (cs : list (label * Series)) : list label :=
  map fst (List.filter (fun kc => is_object (snd kc)) cs).

(** The same loop stopped after the labels [ks]. *)
Definition encode_at (ks : list label) (cs : list (label * Series))
  : list (label * Series) :=
  map (fun kc => if in_dec label_eq_dec (fst kc) ks
                 then (fst kc, LabelEncoder_fit_transform (snd kc))
                 else kc) cs.

(** The working copy [df_encoded] after the encoding loop. *)
Definition encoded_frame (T : DataFrame) : DataFrame :=
  mkDataFrame (index_len T) (encode_columns (columns T)).

(** The frame handed to the scaler. *)
Definition features_of (T : DataFrame) : DataFrame :=
  mkDataFrame (index_len T) (drop_column (LInt 41) (encode_columns (columns T))).

(** The values of a numeric column without infinite cells, as floats. *)
Definition float_values (c : Series) : list R :=
  match c with
  | Int64 v => map IZR v
  | Float64 v => default [] (finite_values v)
  | Object _ => []
  end.

(** The values of a column of the file once the encoding loop has passed
    over it, and the column the scaler makes of an array column. *)
Definition encoded_values (c : Series) : list R :=
  float_values (if is_object c then LabelEncoder_fit_transform c else c).

Definition scaled_column (c : list R) : list R :=
  map (fun x => (x - np_mean c) / scale_of c) c.

(** The column of the file behind column [j] of the scaled array: the label
    column, at index 41, is the one left out. *)
Definition feature_index (j : nat) : nat := if (j <? 41)%nat then j else S j.

(** The array the scaler sees, and the array it returns. *)
Definition X_features (T : DataFrame) : matrix :=
  rows_across (index_len T)
    (map (fun kc => float_values (snd kc)) (columns (features_of T))).

Definition X_scaled_of (T : DataFrame) : matrix :=
  StandardScaler_transform (StandardScaler_fit (X_features T)) (X_features T).

(** What the scorers compute from the scaled array: the scores of the forest
    grown from seed 42, the labels derived from them, and the reconstruction
    errors of the network fitted from the random source [w]. *)
Definition fitted_scores (L : externals) (X : matrix) : list R :=
  map (forest_score L (grow_forest L (RandomState_seed L 42) X)) X.

Definition iforest_labels (L : externals) (X : matrix) : list Z :=
  predict_from_scores (5 / 100) (fitted_scores L X).

Definition mse_of (L : externals) (X : matrix) (w : World L) : list R :=
  losses_mse X (map (keras_predict L (fst (keras_fit L X w))) X).

(** The figures of a report on arrays of equal length. *)
Definition report_of (y_true y_pred : list Z) : list class_metrics :=
  map (metrics_of_class (combine y_true y_pred))
      (np_unique Z.compare (y_true ++ y_pred)).

(** The session after the loader, and after the encoder. *)
Definition loaded {L} (s : session L) (F : raw_table) : session L :=
  mkSession (<[fresh (dom (frames s)) := header_none F]> (frames s)) (entropy s).

Definition encoded {L} (s : session L) (F : raw_table) : session L :=
  mkSession
    (<[fresh (dom (frames (loaded s F))) := encoded_frame (header_none F)]>
       (frames (loaded s F)))
    (entropy s).

(** The notebook on a table [F] from the session [s], in closed form: the
    two locations, the label column as loaded, the working copy after each
    cell, the final session and the values of the run. *)
Definition df_loc {L} (s : session L) : loc := fresh (dom (frames s)).

Definition df_encoded_loc {L} (s : session L) (F : raw_table) : loc :=
  fresh (dom (frames (loaded s F))).

Definition X_of (F : raw_table) : matrix :=
  match StandardScaler_fit_transform (features_of (header_none F)) with
  | inr X => X
  | inl _ => []
  end.

Definition raw_label (F : raw_table) : Series := nth 41 (fields F) (Object []).

Definition columns_after_cell3 (L : externals) (F : raw_table)
  : list (label * Series) :=
  set_column (LStr "anomaly_iforest") (Int64 (iforest_labels L (X_of F)))
    (encode_columns (columns (header_none F))).

Definition columns_after_cell4 {L} (s : session L) (F : raw_table)
  : list (label * Series) :=
  set_column (LStr "anomaly_autoencoder")
    (Int64 (anomaly_autoencoder (mse_of L (X_of F) (entropy s))))
    (columns_after_cell3 L F).

Definition session_after_cell3 {L} (s : session L) (F : raw_table) : session L :=
  mkSession
    (<[df_encoded_loc s F := mkDataFrame (n_rows F) (columns_after_cell3 L F)]>
       (frames (loaded s F)))
    (entropy s).

Definition session_after_cell4 {L} (s : session L) (F : raw_table) : session L :=
  mkSession
    (<[df_encoded_loc s F := mkDataFrame (n_rows F) (columns_after_cell4 s F)]>
       (frames (loaded s F)))
    (snd (keras_fit L (X_of F) (entropy s))).

(** The values cells 2, 3 and 4 have computed when cell 5 is entered. *)
Definition values_of {L} (s : session L) (F : raw_table)
  : loc * (loc * matrix) * list Z * (list R * list Z) :=
  (df_loc s, (df_encoded_loc s F, X_of F), iforest_labels L (X_of F),
   (mse_of L (X_of F) (entropy s),
    anomaly_autoencoder (mse_of L (X_of F) (entropy s)))).

(** A cell body that leaves the frame at [l] as it is, [T], whether it
    returns or raises, and whose results satisfy [Q]. *)
Definition holds_frame {L} (l : loc) (T : DataFrame) (s : session L) : Prop :=
  frames s !! l = Some T.

Definition preserves (L : externals) {A} (l : loc) (T : DataFrame)
  (m : py L A) (Q : A -> Prop) : Prop :=
  forall s, holds_frame l T s ->
    holds_frame l T (snd (m s)) /\ forall a, fst (m s) = inr a -> Q a.

(** The labels the two scorers assign in a run, or the exception that
    stopped the run before both were assigned. *)
Definition scorer_labels_of (L : externals) (F : raw_table) (s : session L)
  : exn + (list Z * list Z) :=
  match fst (run_to_cell4 L F s) with
  | inl e => inl e
  | inr r => inr (snd (fst r), snd (snd r))
  end.

(** Two tables with the same rows and columns except, possibly, for the
    content of column 41. *)
Definition agree_off_label (F1 F2 : raw_table) : Prop :=
  n_rows F1 = n_rows F2
  /\ length (fields F1) = length (fields F2)
  /\ forall j, j <> 41%nat -> nth_error (fields F1) j = nth_error (fields F2) j.

(** The scores strictly below a threshold, and the number of rows a label
    array marks anomalous. *)
Definition below (t : R) (a : list R) : list R :=
  List.filter (fun x => if Rlt_dec x t then true else false) a.

Definition count_anomalous (labels : list Z) : nat :=
  count_occ Z.eq_dec labels (-1)%Z.

(** [Series.value_counts()], the last expression of cells 3 and 4: the
    number of occurrences of every value that occurs, as a finite map (the
    order in which pandas prints the rows is not modelled). *)
Definition value_counts (v : list Z) : gmap Z nat :=
  fold_right (fun x m => <[x := S (default 0%nat (m !! x))]> m) ∅ v.

(** ** Concrete instances for the examples

    A stand-in for the external libraries: the forest scores a row by its
    first entry and the network reproduces its input. *)

Definition example_externals : externals :=
  {| World := unit;
     RandomState := Z;
     RandomState_seed := fun seed => seed;
     global_RandomState := fun w => (0%Z, w);
     Forest := unit;
     grow_forest := fun _ _ => tt;
     forest_score := fun _ r => hd 0 r;
     Model := unit;
     keras_fit := fun _ w => (tt, w);
     keras_predict := fun _ r => r |}.

Definition empty_session : session example_externals :=
  @mkSession example_externals ∅ tt.

(** A table with two columns only: there is no column 41. *)
Definition narrow_table : raw_table :=
  {| n_rows := 1; fields := [Int64 [0%Z]; Object ["normal."%string]] |}.

(** A table of the expected width, 41 features and the label; the first 40
    features are constant. *)
Definition wide_table : raw_table :=
  {| n_rows := 2;
     fields := repeat (Int64 [7%Z; 7%Z]) 40
               ++ [Int64 [1%Z; 3%Z]; Object ["normal."; "smurf."]%string] |}.

(** The same table with other labels. *)
Definition wide_table_relabelled : raw_table :=
  {| n_rows := 2;
     fields := repeat (Int64 [7%Z; 7%Z]) 40
               ++ [Int64 [1%Z; 3%Z]; Object ["neptune."; "normal."]%string] |}.

(** Arrays for the isolation forest: three rows with distinct first entries,
    and ten thousand identical rows. *)
Definition three_rows : matrix := [[1]; [2]; [3]].

Definition identical_rows : matrix := repeat (repeat 0 41) (Z.to_nat 10000).

(** An instance in which the process-wide random source is one bit: the
    forest grown from a set bit scores a row by its first entry, the other
    forest gives every row the same score.  [ramp] has 21 rows with first
    entries 0, 1, ..., 20. *)
Definition coin_externals : externals :=
  {| World := bool;
     RandomState := bool;
     RandomState_seed := fun _ => true;
     global_RandomState := fun w => (w, negb w);
     Forest := bool;
     grow_forest := fun g _ => g;
     forest_score := fun (f : bool) r => if f then hd 0 r else 0;
     Model := unit;
     keras_fit := fun _ w => (tt, w);
     keras_predict := fun _ r => r |}.

Definition unseeded_forest : IsolationForest :=
  {| contamination := 5 / 100; random_state := rs_None |}.

Definition ramp : matrix := map (fun i => [INR i]) (seq 0 21).

(** A table of the expected width whose first feature varies. *)
Definition varied_table : raw_table :=
  {| n_rows := 2;
     fields := Int64 [1%Z; 3%Z] :: repeat (Int64 [7%Z; 7%Z]) 40
               ++ [Object ["normal."; "smurf."]%string] |}.

(** A table of the expected width with the field [inf] in its last
    feature. *)
Definition infinite_table : raw_table :=
  {| n_rows := 2;
     fields := repeat (Int64 [7%Z; 7%Z]) 40
               ++ [Float64 [finite 1; infinity false];
                   Object ["normal."; "smurf."]%string] |}.




(** * Properties *)

(** ** Ground truth *)

Example true_label_is_case_sensitive :
  true_label (Object ["normal."; "Normal."; "smurf."; "normal"])
  = [0%Z; 1%Z; 1%Z; 1%Z].
Proof. reflexivity. Qed.


(** ** Columns of a frame *)

Lemma get_column_In k cs c : get_column k cs = Some c -> List.In (k, c) cs.
Proof.
  induction cs as [| [k' c'] cs IH]; simpl; [discriminate |].
  destruct (decide (k = k')) as [-> | N]; intro H.
  - injection H as ->. now left.
  - right. auto.
Qed.

Lemma get_column_None k cs : get_column k cs = None <-> ~ List.In k (map fst cs).
Proof.
  induction cs as [| [k' c'] cs IH]; simpl.
  - tauto.
  - destruct (decide (k = k')) as [-> | N].
    + split; [discriminate | intro H; exfalso; apply H; now left].
    + rewrite IH. split; intro H; [intros [E | I]; congruence | tauto].
Qed.

Lemma get_column_Some_In k cs :
  List.In k (map fst cs) -> exists c, get_column k cs = Some c.
Proof.
  intro H. destruct (get_column k cs) as [c |] eqn:E; [eauto |].
  apply get_column_None in E. contradiction.
Qed.

Lemma NoDup_In_get k c cs :
  List.NoDup (map fst cs) -> List.In (k, c) cs -> get_column k cs = Some c.
Proof.
  induction cs as [| [k' c'] cs IH]; simpl; [tauto |].
  intros ND [E | I].
  - injection E as -> ->. now rewrite decide_True.
  - inversion ND as [| ? ? NI ND']; subst.
    destruct (decide (k = k')) as [-> | N]; [| auto].
    exfalso. apply NI. apply (in_map fst) in I. exact I.
Qed.

Lemma set_column_labels k v cs :
  List.In k (map fst cs) -> map fst (set_column k v cs) = map fst cs.
Proof.
  induction cs as [| [k' c'] cs IH]; simpl; [tauto |].
  intros H. destruct (decide (k = k')) as [-> | N]; simpl; [reflexivity |].
  f_equal. apply IH. destruct H as [E | I]; [congruence | exact I].
Qed.

Lemma set_column_lengths k v cs n :
  Forall (fun kc => Series_len (snd kc) = n) cs ->
  Series_len v = n ->
  Forall (fun kc => Series_len (snd kc) = n) (set_column k v cs).
Proof.
  intros F Hv. induction F as [| [k' c'] cs Hc F IH]; simpl.
  - constructor; [exact Hv | constructor].
  - destruct (decide (k = k')); constructor; auto.
Qed.

Lemma get_set_same k v cs : get_column k (set_column k v cs) = Some v.
Proof.
  induction cs as [| [k' c'] cs IH]; simpl.
  - now rewrite decide_True.
  - destruct (decide (k = k')) as [-> | N]; simpl.
    + now rewrite decide_True.
    + now rewrite decide_False.
Qed.

Lemma get_set_other k k' v cs :
  k <> k' -> get_column k (set_column k' v cs) = get_column k cs.
Proof.
  intro N. induction cs as [| [k0 c0] cs IH]; simpl.
  - now rewrite decide_False.
  - destruct (decide (k' = k0)) as [-> | N0]; simpl.
    + destruct (decide (k = k0)); [contradiction | reflexivity].
    + destruct (decide (k = k0)); auto.
Qed.

Lemma LabelEncoder_length y :
  Series_len (LabelEncoder_fit_transform y) = Series_len y.
Proof.
  destruct y; simpl; unfold encode; now rewrite length_map.
Qed.

Lemma LabelEncoder_numeric y : is_object (LabelEncoder_fit_transform y) = false.
Proof. destruct y; reflexivity. Qed.

(** ** The encoding loop, on the columns *)

Lemma encode_at_nil cs : encode_at [] cs = cs.
Proof.
  unfold encode_at. rewrite <- (map_id cs) at 2. apply map_ext.
  intros kc. reflexivity.
Qed.

Lemma encode_at_skip k ks cs :
  ~ List.In k (map fst cs) -> encode_at (k :: ks) cs = encode_at ks cs.
Proof.
  intro NI. unfold encode_at. apply map_ext_in. intros [k' c'] I. simpl.
  assert (k <> k') as N.
  { intro E. apply NI. rewrite E. apply (in_map fst) in I. exact I. }
  destruct (label_eq_dec k k') as [E | N']; [contradiction |].
  destruct (in_dec label_eq_dec k' ks); reflexivity.
Qed.

Lemma encode_at_step k c ks cs :
  List.NoDup (map fst cs) ->
  get_column k cs = Some c ->
  ~ List.In k ks ->
  encode_at ks (set_column k (LabelEncoder_fit_transform c) cs)
  = encode_at (k :: ks) cs.
Proof.
  intros ND G NI. induction cs as [| [k' c'] cs IH]; simpl in *; [discriminate |].
  inversion ND as [| ? ? NI' ND']; subst.
  destruct (decide (k = k')) as [<- | N].
  - injection G as ->.
    change (encode_at ks ((k, LabelEncoder_fit_transform c) :: cs)
            = encode_at (k :: ks) ((k, c) :: cs)).
    unfold encode_at at 1 2. simpl.
    destruct (in_dec label_eq_dec k ks) as [I | NI0]; [contradiction |].
    destruct (label_eq_dec k k) as [E0 | N]; [| contradiction].
    f_equal. symmetry. apply (encode_at_skip k ks cs NI').
  - change (encode_at ks ((k', c') :: set_column k (LabelEncoder_fit_transform c) cs)
            = encode_at (k :: ks) ((k', c') :: cs)).
    unfold encode_at at 1 2. simpl.
    destruct (label_eq_dec k k') as [E | N']; [contradiction |].
    f_equal; [destruct (in_dec label_eq_dec k' ks); reflexivity |].
    apply (IH ND' G).
Qed.

Lemma object_labels_In k cs :
  List.In k (object_labels cs) <->
  exists c, List.In (k, c) cs /\ is_object c = true.
Proof.
  unfold object_labels. rewrite in_map_iff. split.
  - intros [[k' c] [E I]]. simpl in E. subst k'.
    apply filter_In in I. simpl in I. eauto.
  - intros [c [I O]]. exists (k, c). split; [reflexivity |].
    apply filter_In. auto.
Qed.

Lemma encode_at_objects cs :
  List.NoDup (map fst cs) -> encode_at (object_labels cs) cs = encode_columns cs.
Proof.
  intro ND. unfold encode_at, encode_columns. apply map_ext_in.
  intros [k c] I. unfold encode_column. simpl.
  destruct (in_dec label_eq_dec k (object_labels cs)) as [J | J].
  - apply object_labels_In in J. destruct J as [c' [I' O]].
    assert (c' = c) as ->.
    { apply (NoDup_In_get _ _ _ ND) in I, I'. congruence. }
    now rewrite O.
  - destruct (is_object c) eqn:O; [| reflexivity].
    exfalso. apply J. apply object_labels_In. eauto.
Qed.

Lemma object_labels_NoDup cs :
  List.NoDup (map fst cs) -> List.NoDup (object_labels cs).
Proof.
  unfold object_labels. induction cs as [| [k c] cs IH]; simpl; intro ND.
  - constructor.
  - inversion ND as [| ? ? NI ND']; subst.
    destruct (is_object c); simpl; [| auto].
    constructor; [| auto].
    intro I. apply NI. apply in_map_iff in I. destruct I as [kc [E I]].
    apply filter_In in I. apply in_map_iff. exists kc. tauto.
Qed.

Lemma object_labels_present k cs :
  List.In k (object_labels cs) -> List.In k (map fst cs).
Proof.
  intro I. apply object_labels_In in I. destruct I as [c [I _]].
  apply (in_map fst) in I. exact I.
Qed.

Lemma encode_columns_labels cs : map fst (encode_columns cs) = map fst cs.
Proof.
  unfold encode_columns. rewrite map_map. apply map_ext. reflexivity.
Qed.

Lemma encode_columns_lengths cs n :
  Forall (fun kc => Series_len (snd kc) = n) cs ->
  Forall (fun kc => Series_len (snd kc) = n) (encode_columns cs).
Proof.
  intro F. unfold encode_columns. apply List.Forall_map.
  eapply List.Forall_impl; [| exact F]. intros [k c] H. simpl in *.
  destruct (is_object c); [now rewrite LabelEncoder_length | exact H].
Qed.

Lemma encode_columns_numeric cs :
  Forall (fun kc => is_object (snd kc) = false) (encode_columns cs).
Proof.
  unfold encode_columns. apply List.Forall_map. apply List.Forall_forall.
  intros [k c] _. simpl. destruct (is_object c) eqn:O; [| exact O].
  apply LabelEncoder_numeric.
Qed.

(** ** Running the frame operations *)

Section Execution.

Context (L : externals).

Implicit Types (s : session L) (l : loc) (d : DataFrame).

Lemma session_eta s : mkSession (frames s) (entropy s) = s.
Proof. destruct s; reflexivity. Qed.

Lemma getitem_run s l d k c :
  frames s !! l = Some d ->
  get_column k (columns d) = Some c ->
  getitem L l k s = (inr c, s).
Proof.
  intros Hl Hk. unfold getitem, bind, get_frame. rewrite Hl, Hk. reflexivity.
Qed.

Lemma setitem_run s l d k v :
  frames s !! l = Some d ->
  Series_len v = index_len d ->
  setitem L l k v s
  = (inr tt,
     mkSession
       (<[l := mkDataFrame (index_len d) (set_column k v (columns d))]> (frames s))
       (entropy s)).
Proof.
  intros Hl Hv. unfold setitem, bind, get_frame. rewrite Hl.
  destruct (decide (Series_len v = index_len d)); [reflexivity | contradiction].
Qed.

(** A write through a location is seen by every later read of that
    location: the heap is shared, only [copy] separates two frames. *)
Lemma setitem_then_getitem s l d k v :
  frames s !! l = Some d ->
  Series_len v = index_len d ->
  fst (getitem L l k (snd (setitem L l k v s))) = inr v.
Proof.
  intros Hl Hv. rewrite (setitem_run s l d k v Hl Hv). simpl snd.
  erewrite getitem_run; [reflexivity | apply lookup_insert_eq |].
  simpl. apply get_set_same.
Qed.

Lemma for_each_encode ks : forall cs s l n,
  frames s !! l = Some (mkDataFrame n cs) ->
  Forall (fun kc => Series_len (snd kc) = n) cs ->
  List.NoDup (map fst cs) ->
  List.NoDup ks ->
  (forall k, List.In k ks -> List.In k (map fst cs)) ->
  for_each ks
    (fun col =>
       bind (getitem L l col)
            (fun y => setitem L l col (LabelEncoder_fit_transform y))) s
  = (inr tt,
     mkSession (<[l := mkDataFrame n (encode_at ks cs)]> (frames s)) (entropy s)).
Proof.
  induction ks as [| k ks IH]; intros cs s l n Hl Hlen ND NDk Hin.
  - simpl. unfold ret. rewrite encode_at_nil.
    rewrite (insert_id _ _ _ Hl). now rewrite session_eta.
  - inversion NDk as [| ? ? NIk NDk']; subst.
    destruct (get_column_Some_In k cs) as [c Hc]; [apply Hin; now left |].
    simpl. unfold bind at 1. unfold bind at 1.
    rewrite (getitem_run s l _ k c Hl Hc).
    assert (Series_len (LabelEncoder_fit_transform c) = n) as Hv.
    { rewrite LabelEncoder_length.
      apply get_column_In in Hc.
      rewrite List.Forall_forall in Hlen. apply (Hlen _ Hc). }
    rewrite (setitem_run s l _ k _ Hl Hv). simpl.
    set (cs1 := set_column k (LabelEncoder_fit_transform c) cs).
    assert (List.In k (map fst cs)) as Ik by (apply Hin; now left).
    rewrite (IH cs1 _ l n).
    + simpl. rewrite insert_insert_eq. unfold cs1.
      now rewrite (encode_at_step k c ks cs ND Hc NIk).
    + simpl. apply lookup_insert_eq.
    + unfold cs1. now apply set_column_lengths.
    + unfold cs1. now rewrite set_column_labels.
    + exact NDk'.
    + intros k' I. unfold cs1. rewrite set_column_labels by exact Ik.
      apply Hin. now right.
Qed.

Lemma bind_run {A B} (m : py L A) (f : A -> py L B) s a s' :
  m s = (inr a, s') -> bind m f s = f a s'.
Proof. intro H. unfold bind. now rewrite H. Qed.

Lemma bind_fail {A B} (m : py L A) (f : A -> py L B) s e s' :
  m s = (inl e, s') -> bind m f s = (inl e, s').
Proof. intro H. unfold bind. now rewrite H. Qed.

Lemma DataFrame_copy_run s l d :
  frames s !! l = Some d ->
  DataFrame_copy L l s
  = (inr (fresh (dom (frames s))),
     mkSession (<[fresh (dom (frames s)) := d]> (frames s)) (entropy s)).
Proof.
  intro Hl. unfold DataFrame_copy, bind, get_frame. rewrite Hl. reflexivity.
Qed.

Lemma select_dtypes_object_run s l d :
  frames s !! l = Some d ->
  select_dtypes_object L l s = (inr (object_labels (columns d)), s).
Proof.
  intro Hl. unfold select_dtypes_object, bind, get_frame. rewrite Hl.
  reflexivity.
Qed.

Lemma DataFrame_drop_run s l d k c :
  frames s !! l = Some d ->
  get_column k (columns d) = Some c ->
  DataFrame_drop L l k s
  = (inr (mkDataFrame (index_len d) (drop_column k (columns d))), s).
Proof.
  intros Hl Hk. unfold DataFrame_drop, bind, get_frame. rewrite Hl, Hk.
  reflexivity.
Qed.

Lemma DataFrame_drop_missing s l d k :
  frames s !! l = Some d ->
  get_column k (columns d) = None ->
  DataFrame_drop L l k s = (inl KeyError, s).
Proof.
  intros Hl Hk. unfold DataFrame_drop, bind, get_frame. rewrite Hl, Hk.
  reflexivity.
Qed.

(** Cell 2 from a session in which [df] holds the frame [T]: the copy is
    allocated and encoded; then the label column is dropped (or found
    missing) and the rest is scaled. *)
Lemma cell_preprocess_run s df T :
  frames s !! df = Some T ->
  wf_frame T ->
  let l := fresh (dom (frames s)) in
  let s1 :=
    mkSession
      (<[l := encoded_frame T]> (frames s))
      (entropy s) in
  cell_preprocess L df s
  = match get_column (LInt 41) (columns T) with
    | None => (inl KeyError, s1)
    | Some _ =>
        match StandardScaler_fit_transform (features_of T) with
        | inl e => (inl e, s1)
        | inr X => (inr (l, X), s1)
        end
    end.
Proof.
  intros Hdf [Hlen ND] l s1. destruct T as [n cs].
  unfold encoded_frame in s1. simpl in *.
  unfold cell_preprocess.
  rewrite (bind_run _ _ _ _ _ (DataFrame_copy_run s df _ Hdf)). fold l.
  set (s0 := mkSession (<[l := mkDataFrame n cs]> (frames s)) (entropy s)).
  assert (frames s0 !! l = Some (mkDataFrame n cs)) as Hl
    by (simpl; apply lookup_insert_eq).
  rewrite (bind_run _ _ _ _ _ (select_dtypes_object_run s0 l _ Hl)).
  simpl columns.
  rewrite (bind_run _ _ _ _ _
             (for_each_encode (object_labels cs) cs s0 l n Hl Hlen ND
                (object_labels_NoDup cs ND)
                (fun k => object_labels_present k cs))).
  rewrite (encode_at_objects cs ND).
  subst s0. simpl frames. simpl entropy. rewrite insert_insert_eq. fold s1.
  assert (frames s1 !! l = Some (mkDataFrame n (encode_columns cs))) as Hl1
    by (simpl; apply lookup_insert_eq).
  destruct (get_column (LInt 41) cs) as [c |] eqn:G.
  - destruct (get_column_Some_In (LInt 41) (encode_columns cs)) as [c' G'].
    { rewrite encode_columns_labels. apply get_column_In in G.
      apply (in_map fst) in G. exact G. }
    rewrite (bind_run _ _ _ _ _ (DataFrame_drop_run s1 l _ _ c' Hl1 G')).
    unfold features_of. simpl index_len. simpl columns.
    unfold bind, lift, ret.
    destruct (StandardScaler_fit_transform
                (mkDataFrame n (drop_column (LInt 41) (encode_columns cs))));
      reflexivity.
  - assert (get_column (LInt 41) (encode_columns cs) = None) as G'.
    { apply get_column_None. rewrite encode_columns_labels.
      now apply get_column_None. }
    now rewrite (bind_fail _ _ _ _ _ (DataFrame_drop_missing s1 l _ _ Hl1 G')).
Qed.

End Execution.

(** ** From the frame to the scaled array *)

Lemma finite_values_Some v :
  Forall is_finite v -> finite_values v = Some (default [] (finite_values v)).
Proof.
  induction 1 as [| x v Hx F IH]; simpl; [reflexivity |].
  destruct x as [x | b]; [| contradiction].
  rewrite IH. reflexivity.
Qed.

Lemma finite_values_length v xs : finite_values v = Some xs -> length xs = length v.
Proof.
  revert xs. induction v as [| x v IH]; simpl; intros xs E.
  - injection E as <-. reflexivity.
  - destruct x as [x | b]; [| discriminate].
    destruct (finite_values v) as [ys |]; [| discriminate].
    injection E as <-. simpl. f_equal. now apply IH.
Qed.

Lemma columns_to_float_numeric cs :
  Forall (fun kc => is_object (snd kc) = false) cs ->
  Forall (fun kc => finite_column (snd kc)) cs ->
  columns_to_float cs = inr (map (fun kc => float_values (snd kc)) cs).
Proof.
  induction 1 as [| [k c] cs Hc F IH]; simpl; intro Fin; [reflexivity |].
  inversion Fin as [| ? ? Hf Fin']; subst.
  rewrite (IH Fin'). simpl in Hc, Hf. destruct c; simpl.
  - reflexivity.
  - now rewrite (finite_values_Some v Hf).
  - discriminate.
Qed.

Lemma encode_columns_finite cs :
  Forall (fun kc => finite_column (snd kc)) cs ->
  Forall (fun kc => finite_column (snd kc)) (encode_columns cs).
Proof.
  intro F. unfold encode_columns. apply List.Forall_map.
  eapply List.Forall_impl; [| exact F]. intros [k c] H. simpl in *.
  destruct c; simpl; auto.
Qed.

Lemma drop_column_Forall (P : label * Series -> Prop) k cs :
  Forall P cs -> Forall P (drop_column k cs).
Proof.
  intro F. apply List.Forall_forall. intros kc I.
  apply filter_In in I. rewrite List.Forall_forall in F. apply F. tauto.
Qed.

Lemma drop_column_absent k cs :
  ~ List.In k (map fst cs) -> drop_column k cs = cs.
Proof.
  induction cs as [| [k' c] cs IH]; simpl; intro NI; [reflexivity |].
  rewrite bool_decide_false by (intro E; apply NI; now left).
  simpl. f_equal. apply IH. tauto.
Qed.

Lemma drop_column_length k cs :
  List.NoDup (map fst cs) ->
  List.In k (map fst cs) ->
  S (length (drop_column k cs)) = length cs.
Proof.
  induction cs as [| [k' c] cs IH]; simpl; intros ND I; [contradiction |].
  inversion ND as [| ? ? NI ND']; subst.
  destruct (decide (k' = k)) as [-> | N].
  - rewrite bool_decide_true by reflexivity. simpl.
    change (List.filter _ cs) with (drop_column k cs).
    now rewrite drop_column_absent.
  - rewrite bool_decide_false by exact N. simpl.
    change (List.filter _ cs) with (drop_column k cs).
    f_equal. apply IH; [exact ND' |]. destruct I; [contradiction | assumption].
Qed.

Lemma to_numpy_features T :
  Forall (fun kc => finite_column (snd kc)) (columns T) ->
  to_numpy (features_of T) = inr (X_features T).
Proof.
  intro Fin. unfold to_numpy, X_features.
  rewrite columns_to_float_numeric; [reflexivity | |].
  - apply drop_column_Forall, encode_columns_numeric.
  - simpl. apply drop_column_Forall, encode_columns_finite, Fin.
Qed.

Lemma rows_across_length n vs : length (rows_across n vs) = n.
Proof. unfold rows_across. now rewrite length_map, length_seq. Qed.

Lemma rows_across_width n vs :
  Forall (fun r => length r = length vs) (rows_across n vs).
Proof.
  unfold rows_across. apply List.Forall_map. apply List.Forall_forall.
  intros i _. apply length_map.
Qed.

Lemma shape_rows_across n vs :
  shape (rows_across (S n) vs) = (S n, length vs).
Proof.
  unfold shape. rewrite rows_across_length. f_equal.
  unfold rows_across. simpl. apply length_map.
Qed.

Lemma transform_length sc X :
  length (StandardScaler_transform sc X) = length X.
Proof. apply length_map. Qed.

Lemma fit_lengths X :
  length (mean_ (StandardScaler_fit X)) = snd (shape X)
  /\ length (scale_ (StandardScaler_fit X)) = snd (shape X).
Proof. simpl. now rewrite !length_map, !length_seq. Qed.

Lemma transform_width sc X p :
  length (mean_ sc) = p -> length (scale_ sc) = p ->
  Forall (fun r => length r = p) X ->
  Forall (fun r => length r = p) (StandardScaler_transform sc X).
Proof.
  intros Hm Hs F. unfold StandardScaler_transform. apply List.Forall_map.
  eapply List.Forall_impl; [| exact F]. intros r Hr.
  unfold StandardScaler_transform_row.
  rewrite length_map, !length_combine. cbv beta in Hr. lia.
Qed.

Lemma features_width T :
  wf_frame T ->
  List.In (LInt 41) (map fst (columns T)) ->
  S (length (columns (features_of T))) = length (columns T).
Proof.
  intros [_ ND] I. unfold features_of. simpl.
  rewrite drop_column_length.
  - unfold encode_columns. apply length_map.
  - now rewrite encode_columns_labels.
  - now rewrite encode_columns_labels.
Qed.

(** The scaler accepts the features of every frame without infinite cells
    that has at least one row and, besides the label column, at least one
    more column. *)
Lemma scaler_accepts T :
  wf_frame T ->
  List.In (LInt 41) (map fst (columns T)) ->
  (1 <= index_len T)%nat ->
  (2 <= length (columns T))%nat ->
  Forall (fun kc => finite_column (snd kc)) (columns T) ->
  StandardScaler_fit_transform (features_of T) = inr (X_scaled_of T).
Proof.
  intros W I Hn Hp Fin. unfold StandardScaler_fit_transform.
  rewrite (to_numpy_features T Fin). unfold check_array, X_scaled_of, X_features.
  pose proof (features_width T W I) as Hw.
  destruct (index_len T) as [| n] eqn:En; [lia |].
  rewrite shape_rows_across. rewrite length_map.
  destruct (length (columns (features_of T))) as [| p]; [lia | reflexivity].
Qed.

Lemma X_scaled_shape T :
  length (X_scaled_of T) = index_len T
  /\ Forall (fun r => length r = length (columns (features_of T))) (X_scaled_of T).
Proof.
  unfold X_scaled_of. split.
  - rewrite transform_length. unfold X_features. apply rows_across_length.
  - assert (Forall (fun r => length r = length (columns (features_of T)))
                   (X_features T)) as F.
    { unfold X_features.
      pose proof (rows_across_width (index_len T)
                    (map (fun kc => float_values (snd kc)) (columns (features_of T)))) as F.
      now rewrite length_map in F. }
    destruct (fit_lengths (X_features T)) as [Hm Hs].
    destruct (X_features T) as [| r X] eqn:E; [constructor |].
    rewrite <- E in *.
    assert (snd (shape (X_features T)) = length (columns (features_of T))) as Hp.
    { rewrite E. simpl. rewrite E in F. now inversion F. }
    apply transform_width; [congruence | congruence | exact F].
Qed.

(** ** The frame built by [read_csv(header=None)] *)

Lemma label_from_labels cs : forall i,
  map fst (label_from i cs) = map (fun j => LInt (Z.of_nat j)) (seq i (length cs)).
Proof.
  induction cs as [| c cs IH]; intro i; simpl; [reflexivity |].
  now rewrite IH.
Qed.

Lemma label_from_In k cs i :
  List.In (LInt (Z.of_nat k)) (map fst (label_from i cs))
  <-> (i <= k < i + length cs)%nat.
Proof.
  rewrite label_from_labels, in_map_iff. split.
  - intros [j [E I]]. apply in_seq in I. injection E as E.
    apply Nat2Z.inj in E. lia.
  - intro H. exists k. split; [reflexivity |]. apply in_seq. lia.
Qed.

Lemma label_from_NoDup cs i : List.NoDup (map fst (label_from i cs)).
Proof.
  rewrite label_from_labels. apply Finite.Injective_map_NoDup.
  - intros a b E. injection E as E. now apply Nat2Z.inj.
  - apply seq_NoDup.
Qed.

Lemma label_from_length cs i : length (label_from i cs) = length cs.
Proof.
  revert i. induction cs as [| c cs IH]; intro i; simpl; [reflexivity |].
  now rewrite IH.
Qed.

Lemma label_from_lengths n cs i :
  Forall (fun c => Series_len c = n) cs ->
  Forall (fun kc => Series_len (snd kc) = n) (label_from i cs).
Proof.
  intro F. revert i. induction F as [| c cs Hc F IH]; intro i; simpl;
    constructor; auto.
Qed.

Lemma header_none_wf F : rectangular F -> wf_frame (header_none F).
Proof.
  intro R. split; simpl.
  - now apply label_from_lengths.
  - apply label_from_NoDup.
Qed.

Lemma header_none_has_41 F :
  List.In (LInt 41) (map fst (columns (header_none F)))
  <-> (42 <= length (fields F))%nat.
Proof.
  simpl. change 41%Z with (Z.of_nat 41). rewrite label_from_In. lia.
Qed.

Lemma header_none_width F :
  length (columns (header_none F)) = length (fields F).
Proof. apply label_from_length. Qed.

Lemma label_from_Forall (P : Series -> Prop) cs i :
  Forall P cs -> Forall (fun kc => P (snd kc)) (label_from i cs).
Proof.
  intro F. revert i. induction F as [| c cs Hc F IH]; intro i; simpl;
    constructor; auto.
Qed.

Lemma header_none_finite F :
  finite_fields F ->
  Forall (fun kc => finite_column (snd kc)) (columns (header_none F)).
Proof. intro Fin. simpl. now apply label_from_Forall. Qed.

(** ** Cells 1 and 2 together *)

Section Preprocessing.

Context (L : externals).

Implicit Types (s : session L) (F : raw_table).

(** Cells 1 and 2 on a table with a column 41: the run returns what the
    scaler returns, or stops with the exception the scaler raises. *)
Lemma run_to_cell2_run s F :
  rectangular F ->
  (42 <= length (fields F))%nat ->
  run_to_cell2 L F s
  = (match StandardScaler_fit_transform (features_of (header_none F)) with
     | inl e => inl e
     | inr X => inr (df_loc s, (df_encoded_loc s F, X))
     end,
     encoded s F).
Proof.
  intros R Hp. unfold run_to_cell2, read_csv.
  rewrite (bind_run L _ _ s (fresh (dom (frames s))) (loaded s F))
    by reflexivity.
  assert (frames (loaded s F) !! fresh (dom (frames s)) = Some (header_none F))
    as Hdf by (simpl; apply lookup_insert_eq).
  pose proof (cell_preprocess_run L _ _ _ Hdf (header_none_wf F R)) as E.
  cbv zeta in E.
  assert (List.In (LInt 41) (map fst (columns (header_none F)))) as I
    by now apply header_none_has_41.
  destruct (get_column_Some_In _ _ I) as [c G]. rewrite G in E.
  destruct (StandardScaler_fit_transform (features_of (header_none F)))
    as [e | X].
  - now rewrite (bind_fail L _ _ _ _ _ E).
  - now rewrite (bind_run L _ _ _ _ _ E).
Qed.

Lemma input_table_scaled F :
  input_table F -> finite_fields F ->
  StandardScaler_fit_transform (features_of (header_none F))
  = inr (X_scaled_of (header_none F)).
Proof.
  intros (R & Hn & Hp & _) Fin. apply scaler_accepts.
  - now apply header_none_wf.
  - now apply header_none_has_41.
  - exact Hn.
  - rewrite header_none_width. lia.
  - now apply header_none_finite.
Qed.

Lemma X_of_input_table F :
  input_table F -> finite_fields F -> X_of F = X_scaled_of (header_none F).
Proof.
  intros I Fin. unfold X_of. now rewrite (input_table_scaled F I Fin).
Qed.

Lemma run_to_cell2_ok s F :
  input_table F ->
  finite_fields F ->
  run_to_cell2 L F s
  = (inr (df_loc s, (df_encoded_loc s F, X_scaled_of (header_none F))),
     encoded s F).
Proof.
  intros I Fin. destruct I as (R & Hn & Hp & Hz).
  rewrite (run_to_cell2_run s F R Hp).
  now rewrite (input_table_scaled F (conj R (conj Hn (conj Hp Hz))) Fin).
Qed.

Lemma run_to_cell2_narrow s F :
  rectangular F ->
  (length (fields F) < 42)%nat ->
  run_to_cell2 L F s = (inl KeyError, encoded s F).
Proof.
  intros R Hp. unfold run_to_cell2, read_csv.
  rewrite (bind_run L _ _ s (fresh (dom (frames s))) (loaded s F))
    by reflexivity.
  assert (frames (loaded s F) !! fresh (dom (frames s)) = Some (header_none F))
    as Hdf by (simpl; apply lookup_insert_eq).
  pose proof (cell_preprocess_run L _ _ _ Hdf (header_none_wf F R)) as E.
  cbv zeta in E.
  assert (get_column (LInt 41) (columns (header_none F)) = None) as G.
  { apply get_column_None. rewrite header_none_has_41. lia. }
  rewrite G in E. now rewrite (bind_fail L _ _ _ _ _ E).
Qed.

End Preprocessing.

(** The example tables are input tables without infinite fields. *)
Ltac table_facts :=
  repeat first
    [ exact Logic.I
    | progress (simpl; unfold in_int64; try lia)
    | split
    | constructor ].

Lemma wide_table_rectangular : rectangular wide_table.
Proof. unfold rectangular, wide_table. simpl. repeat constructor. Qed.

Lemma narrow_table_rectangular : rectangular narrow_table.
Proof. unfold rectangular, narrow_table. simpl. repeat constructor. Qed.

Lemma wide_table_input : input_table wide_table /\ finite_fields wide_table.
Proof. unfold input_table, finite_fields, rectangular, wide_table. table_facts. Qed.

Lemma wide_table_relabelled_input :
  input_table wide_table_relabelled /\ finite_fields wide_table_relabelled.
Proof.
  unfold input_table, finite_fields, rectangular, wide_table_relabelled.
  table_facts.
Qed.

Lemma varied_table_input : input_table varied_table /\ finite_fields varied_table.
Proof.
  unfold input_table, finite_fields, rectangular, varied_table. table_facts.
Qed.

Lemma infinite_table_input : input_table infinite_table.
Proof. unfold input_table, rectangular, infinite_table. table_facts. Qed.

(** ** Means and deviations *)



Lemma np_sum_squares_nonneg (m : R) (a : list R) :
  0 <= np_sum (map (fun x => (x - m) * (x - m)) a).
Proof.
  induction a as [| x a IH]; simpl; [lra |].
  pose proof (Rle_0_sqr (x - m)) as H. unfold Rsqr in H. lra.
Qed.

Lemma np_var_nonneg (a : list R) : 0 <= np_var a.
Proof.
  unfold np_var, np_mean at 1. rewrite length_map.
  apply Rmult_le_pos; [apply np_sum_squares_nonneg |].
  destruct a as [| x a].
  - simpl. rewrite Rinv_0. lra.
  - left. apply Rinv_0_lt_compat. apply lt_0_INR. simpl. lia.
Qed.

Lemma np_sum_squares_zero (m : R) (a : list R) :
  np_sum (map (fun x => (x - m) * (x - m)) a) = 0 -> Forall (fun x => x = m) a.
Proof.
  induction a as [| x a IH]; simpl; intro H; [constructor |].
  pose proof (np_sum_squares_nonneg m a) as Ha.
  pose proof (Rle_0_sqr (x - m)) as Hx. unfold Rsqr in Hx.
  constructor.
  - assert ((x - m) * (x - m) = 0) as Z by lra.
    apply Rmult_integral in Z. lra.
  - apply IH. lra.
Qed.

(** A column whose standard deviation is zero is constant, equal to its
    mean. *)
Lemma np_std_zero_constant (a : list R) :
  np_std a = 0 -> Forall (fun x => x = np_mean a) a.
Proof.
  intro H. unfold np_std in H.
  apply sqrt_eq_0 in H; [| apply np_var_nonneg].
  destruct a as [| x a]; [constructor |].
  apply np_sum_squares_zero.
  unfold np_var, np_mean at 1 in H. rewrite length_map in H.
  apply Rmult_integral in H. destruct H as [H | H]; [exact H |].
  exfalso. revert H. apply Rinv_neq_0_compat. apply not_0_INR. discriminate.
Qed.





(** ** The columns of the scaled array *)

Lemma nth_map_seq (f : nat -> R) (p j : nat) (d : R) :
  (j < p)%nat -> nth j (map f (seq 0 p)) d = f j.
Proof.
  intro H. rewrite (nth_indep _ d (f 0%nat)) by now rewrite length_map, length_seq.
  rewrite map_nth. now rewrite seq_nth.
Qed.

Lemma nth_transform_row (sc : StandardScaler) (r : list R) (j : nat) :
  (j < length r)%nat ->
  length (mean_ sc) = length r ->
  length (scale_ sc) = length r ->
  nth j (StandardScaler_transform_row sc r) 0
  = (nth j r 0 - nth j (mean_ sc) 0) / nth j (scale_ sc) 0.
Proof.
  intros Hj Hm Hs. unfold StandardScaler_transform_row.
  set (g := fun xms : R * (R * R) => standardize (fst xms) (snd xms)).
  rewrite (nth_indep _ 0 (g (0, (0, 0)))).
  - rewrite map_nth. rewrite combine_nth by (rewrite length_combine; lia).
    rewrite combine_nth by lia. reflexivity.
  - rewrite length_map, !length_combine. lia.
Qed.

Lemma column_of_transform (X : matrix) (p j : nat) :
  Forall (fun r => length r = p) X ->
  snd (shape X) = p ->
  (j < p)%nat ->
  column_of j (StandardScaler_transform (StandardScaler_fit X) X)
  = scaled_column (column_of j X).
Proof.
  intros F Hp Hj. unfold scaled_column, column_of at 1 4, StandardScaler_transform.
  rewrite !map_map. apply map_ext_in. intros r I.
  rewrite List.Forall_forall in F. specialize (F r I).
  destruct (fit_lengths X) as [Hm Hs]. rewrite Hp in Hm, Hs.
  rewrite nth_transform_row by lia.
  unfold StandardScaler_fit. cbn [mean_ scale_]. rewrite Hp.
  now rewrite !nth_map_seq by exact Hj.
Qed.

Lemma scale_of_fit (X : matrix) (j : nat) :
  (j < snd (shape X))%nat ->
  nth j (scale_ (StandardScaler_fit X)) 0 = scale_of (column_of j X).
Proof. intro Hj. unfold StandardScaler_fit. cbn [scale_]. now rewrite nth_map_seq. Qed.

(** *** The scale of a column *)

Lemma float64_eps_pos : 0 < float64_eps.
Proof.
  unfold float64_eps. apply Rinv_0_lt_compat. apply IZR_lt. reflexivity.
Qed.

Lemma is_constant_feature_bound (var mean : R) (n : nat) :
  0 <= var ->
  0 <= INR n * float64_eps * var
       + (INR n * mean * float64_eps) * (INR n * mean * float64_eps).
Proof.
  intro Hv. pose proof float64_eps_pos as He. pose proof (pos_INR n) as Hn.
  pose proof (Rle_0_sqr (INR n * mean * float64_eps)) as Hs. unfold Rsqr in Hs.
  assert (0 <= INR n * float64_eps * var) as H1.
  { apply Rmult_le_pos; [apply Rmult_le_pos |]; lra. }
  lra.
Qed.

(** A column of variance zero counts as constant: its scale is one. *)
Lemma scale_of_zero_variance (c : list R) : np_var c = 0 -> scale_of c = 1.
Proof.
  intro Hv. unfold scale_of, is_constant_feature, handle_zeros_in_scale.
  rewrite Hv. destruct (Rle_dec _ _) as [_ | N]; [reflexivity |].
  exfalso. apply N. apply is_constant_feature_bound. lra.
Qed.

(** The scale of a column that does not count as constant is its standard
    deviation, which is not zero. *)
Lemma scale_of_not_constant (c : list R) :
  is_constant_feature (np_var c) (np_mean c) (length c) = false ->
  scale_of c = np_std c /\ np_std c <> 0.
Proof.
  intro H. unfold scale_of. rewrite H. split; [reflexivity |].
  unfold is_constant_feature in H.
  destruct (Rle_dec _ _) as [_ | N]; [discriminate |].
  pose proof (is_constant_feature_bound (np_var c) (np_mean c) (length c)
                (np_var_nonneg c)) as B.
  intro Z. unfold np_std in Z. apply sqrt_eq_0 in Z; [| apply np_var_nonneg].
  apply N. rewrite Z at 1. exact B.
Qed.

Lemma scale_of_pos (c : list R) : 0 < scale_of c.
Proof.
  destruct (is_constant_feature (np_var c) (np_mean c) (length c)) eqn:E.
  - unfold scale_of, handle_zeros_in_scale. rewrite E. lra.
  - destruct (scale_of_not_constant c E) as [-> N].
    pose proof (sqrt_pos (np_var c)) as P. unfold np_std in *. lra.
Qed.


Lemma to_numpy_rectangular d X :
  to_numpy d = inr X ->
  length X = index_len d /\ Forall (fun r => length r = length (columns d)) X.
Proof.
  unfold to_numpy. destruct (columns_to_float (columns d)) as [e | vs] eqn:E;
    [discriminate |].
  intro H. injection H as <-. split; [apply rows_across_length |].
  assert (length vs = length (columns d)) as <-.
  { revert vs E. generalize (columns d). intro cs.
    induction cs as [| [k c] cs IH]; simpl; intros vs E.
    - now injection E as <-.
    - destruct (Series_to_float c); [discriminate |].
      destruct (columns_to_float cs) as [| vs']; [discriminate |].
      injection E as <-. simpl. f_equal. now apply IH. }
  apply rows_across_width.
Qed.

(** What [fit_transform] returns, whenever it returns. *)
Lemma fit_transform_inr d X0 X :
  to_numpy d = inr X0 ->
  StandardScaler_fit_transform d = inr X ->
  X0 <> []
  /\ snd (shape X0) = length (columns d)
  /\ X = StandardScaler_transform (StandardScaler_fit X0) X0.
Proof.
  intros E0 E. unfold StandardScaler_fit_transform in E. rewrite E0 in E.
  destruct (to_numpy_rectangular d X0 E0) as [_ Hw].
  unfold check_array in E. destruct X0 as [| r X0]; [discriminate |].
  simpl in E. inversion Hw as [| ? ? Hr _]; subst.
  split; [discriminate |]. split; [exact Hr |].
  destruct (length r); [discriminate |]. now injection E as <-.
Qed.

(** What [fit_transform] returns passes the tests of [check_array] and has
    a row for every row of the frame. *)
Lemma fit_transform_checked d X :
  StandardScaler_fit_transform d = inr X ->
  check_array X = inr X /\ length X = index_len d.
Proof.
  intro E. destruct (to_numpy d) as [e | X0] eqn:E0.
  { unfold StandardScaler_fit_transform in E. rewrite E0 in E. discriminate. }
  destruct (fit_transform_inr d X0 X E0 E) as [N [Hp ->]].
  destruct (to_numpy_rectangular d X0 E0) as [Hn Hw].
  split; [| now rewrite transform_length].
  destruct (fit_lengths X0) as [Hm Hs]. rewrite Hp in Hm, Hs.
  pose proof (transform_width (StandardScaler_fit X0) X0 _ Hm Hs Hw) as W.
  unfold StandardScaler_fit_transform in E. rewrite E0 in E.
  unfold check_array in E |- *.
  destruct X0 as [| r X0]; [contradiction |].
  simpl in Hp. simpl in E. rewrite Hp in E.
  destruct (length (columns d)) as [| p] eqn:Ep; [discriminate |].
  inversion W as [| ? ? Hr _]; subst.
  unfold shape. cbn [StandardScaler_transform map length hd] in *.
  now rewrite Hr.
Qed.


Lemma np_var_example : np_var [0; 2] = 1.
Proof. unfold np_var, np_mean. simpl. field. Qed.


Lemma np_std_example : np_std [0; 2] = 1.
Proof. unfold np_std. rewrite np_var_example. apply sqrt_1. Qed.






(** ** The array the scaler sees *)

Lemma X_features_shape T :
  (1 <= index_len T)%nat ->
  snd (shape (X_features T)) = length (columns (features_of T))
  /\ Forall (fun r => length r = length (columns (features_of T))) (X_features T).
Proof.
  intro Hn. unfold X_features. split.
  - destruct (index_len T) as [| n]; [lia |].
    rewrite shape_rows_across. simpl. apply length_map.
  - pose proof (rows_across_width (index_len T)
                  (map (fun kc => float_values (snd kc)) (columns (features_of T))))
      as F.
    now rewrite length_map in F.
Qed.

Lemma map_nth_seq_id (l : list R) :
  map (fun i => nth i l 0) (seq 0 (length l)) = l.
Proof.
  apply (nth_ext _ _ 0 0).
  - now rewrite length_map, length_seq.
  - intros i Hi. rewrite length_map, length_seq in Hi.
    now rewrite nth_map_seq.
Qed.

(** Reading the rows across the columns and then one column of the rows
    gives that column back. *)
Lemma column_of_rows_across (j n : nat) (vs : list (list R)) :
  (j < length vs)%nat ->
  length (nth j vs []) = n ->
  column_of j (rows_across n vs) = nth j vs [].
Proof.
  intros Hj Hn. unfold column_of, rows_across. rewrite map_map.
  transitivity (map (fun i => nth i (nth j vs []) 0) (seq 0 n)).
  - apply map_ext. intro i.
    pose proof (map_nth (fun v : list R => nth i v 0) vs [] j) as M.
    cbv beta in M. rewrite <- M. apply nth_indep. now rewrite length_map.
  - rewrite <- Hn. apply map_nth_seq_id.
Qed.

Lemma float_values_length c :
  is_object c = false -> finite_column c -> length (float_values c) = Series_len c.
Proof.
  destruct c as [v | v | v]; simpl; intros O Fin.
  - apply length_map.
  - apply finite_values_length. now apply finite_values_Some.
  - discriminate.
Qed.

Lemma encoded_values_length c :
  finite_column c -> length (encoded_values c) = Series_len c.
Proof.
  intro Fin. unfold encoded_values. destruct (is_object c) eqn:O.
  - rewrite float_values_length.
    + apply LabelEncoder_length.
    + apply LabelEncoder_numeric.
    + destruct c; exact Logic.I.
  - now apply float_values_length.
Qed.

(** Column [j] of the frame without the label [k] is column [j] of the
    file before position [k] and column [j + 1] from there on. *)
Lemma nth_drop_label_from (d : Series) (k : nat) (cs : list Series) :
  forall i j, (i <= k)%nat ->
  nth j (map snd (drop_column (LInt (Z.of_nat k)) (label_from i cs))) d
  = nth (if (j + i <? k)%nat then j else S j) cs d.
Proof.
  induction cs as [| c cs IH]; intros i j Hi.
  - simpl. destruct j; destruct (_ <? _)%nat; reflexivity.
  - simpl label_from. unfold drop_column. simpl List.filter.
    fold (drop_column (LInt (Z.of_nat k)) (label_from (S i) cs)).
    destruct (decide (i = k)) as [-> | N].
    + rewrite bool_decide_true by reflexivity. simpl negb. cbv iota.
      rewrite drop_column_absent.
      * assert ((j + k <? k)%nat = false) as -> by (apply Nat.ltb_ge; lia).
        simpl. clear. revert j. generalize (S k).
        induction cs as [| c' cs IH]; intros i j; simpl;
          [now destruct j | destruct j; [reflexivity | apply IH]].
      * rewrite label_from_In. lia.
    + rewrite bool_decide_false
        by (intro E; injection E as E; apply Nat2Z.inj in E; contradiction).
      simpl negb. cbv iota. simpl map. destruct j as [| j].
      * simpl. assert ((i <? k)%nat = true) as -> by (apply Nat.ltb_lt; lia).
        reflexivity.
      * simpl nth at 1. rewrite (IH (S i) j) by lia.
        replace (j + S i)%nat with (S j + i)%nat by lia.
        destruct (S j + i <? k)%nat; reflexivity.
Qed.

Lemma drop_encode_columns k cs :
  drop_column k (encode_columns cs) = encode_columns (drop_column k cs).
Proof.
  unfold drop_column, encode_columns.
  induction cs as [| [k' c] cs IH]; simpl; [reflexivity |].
  destruct (bool_decide (k' = k)); simpl; now rewrite IH.
Qed.

Lemma features_length F :
  (42 <= length (fields F))%nat ->
  S (length (drop_column (LInt 41) (label_from 0 (fields F)))) = length (fields F).
Proof.
  intro Hp. rewrite drop_column_length.
  - apply label_from_length.
  - apply label_from_NoDup.
  - change 41%Z with (Z.of_nat 41). rewrite label_from_In. lia.
Qed.

(** The columns of the array the scaler sees are the encoded columns of the
    file except the one at index 41. *)
Lemma X_features_column F j :
  input_table F -> finite_fields F ->
  (j < length (fields F) - 1)%nat ->
  column_of j (X_features (header_none F))
  = encoded_values (nth (feature_index j) (fields F) (Object [])).
Proof.
  intros (R & Hn & Hp & _) Fin Hj.
  pose proof (features_length F Hp) as Hl.
  assert (feature_index j < length (fields F))%nat as Hf.
  { unfold feature_index. destruct (j <? 41)%nat; lia. }
  assert (List.In (nth (feature_index j) (fields F) (Object [])) (fields F)) as I
    by now apply nth_In.
  unfold X_features, features_of. simpl index_len. simpl columns.
  rewrite drop_encode_columns. unfold encode_columns. rewrite map_map.
  rewrite (map_ext _ (fun kc => encoded_values (snd kc)))
    by (intros [k c]; reflexivity).
  rewrite <- (map_map snd encoded_values).
  assert (nth j (map encoded_values
                   (map snd (drop_column (LInt 41) (label_from 0 (fields F))))) []
          = encoded_values (nth (feature_index j) (fields F) (Object []))) as E.
  { rewrite (nth_indep _ [] (encoded_values (Object [])))
      by (rewrite !length_map; lia).
    rewrite map_nth. f_equal.
    change 41%Z with (Z.of_nat 41).
    rewrite (nth_drop_label_from (Object []) 41 (fields F) 0 j) by lia.
    unfold feature_index. now rewrite Nat.add_0_r. }
  rewrite column_of_rows_across.
  - exact E.
  - rewrite !length_map. lia.
  - rewrite E. rewrite encoded_values_length.
    + unfold rectangular in R. rewrite List.Forall_forall in R. now apply R.
    + unfold finite_fields in Fin. rewrite List.Forall_forall in Fin.
      now apply Fin.
Qed.

Lemma X_scaled_column F j :
  input_table F -> finite_fields F ->
  (j < length (fields F) - 1)%nat ->
  column_of j (X_scaled_of (header_none F))
  = scaled_column (column_of j (X_features (header_none F))).
Proof.
  intros I Fin Hj. destruct I as (R & Hn & Hp & Hz).
  set (T := header_none F).
  assert (S (length (columns (features_of T))) = length (fields F)) as Hw.
  { unfold T. rewrite features_width.
    - apply header_none_width.
    - now apply header_none_wf.
    - now apply header_none_has_41. }
  destruct (X_features_shape T Hn) as [Hs Hr].
  unfold X_scaled_of.
  apply (column_of_transform _ (length (columns (features_of T))) j Hr Hs).
  lia.
Qed.

(** C3 (as amended). For every input table whose numeric fields are all
    finite, the Encoder/Normalizer returns a matrix of numbers with as many
    rows as the table and one column fewer: its columns are the encoded and
    scaled columns of the table in their order, except the label column at
    index 41, which is the one left out. *)
Theorem encoder_normalizer_shape (L : externals) (s : session L) (F : raw_table) :
  input_table F ->
  finite_fields F ->
  exists (df df_encoded : loc) (X_scaled : matrix) (s' : session L),
    run_to_cell2 L F s = (inr (df, (df_encoded, X_scaled)), s')
    /\ length X_scaled = n_rows F
    /\ Forall (fun r => length r = (length (fields F) - 1)%nat) X_scaled
    /\ forall j, (j < length (fields F) - 1)%nat ->
         column_of j X_scaled
         = scaled_column
             (encoded_values (nth (feature_index j) (fields F) (Object []))).
Proof.
  intros I Fin. eexists _, _, _, _. split; [| split; [| split]].
  - apply (run_to_cell2_ok L s F I Fin).
  - apply X_scaled_shape.
  - destruct I as (R & Hn & Hp & Hz).
    destruct (X_scaled_shape (header_none F)) as [_ Hw].
    assert (S (length (columns (features_of (header_none F))))
            = length (fields F)) as E.
    { rewrite features_width.
      - apply header_none_width.
      - now apply header_none_wf.
      - now apply header_none_has_41. }
    eapply List.Forall_impl; [| exact Hw]. intros r Hr. cbv beta in Hr. lia.
  - intros j Hj. rewrite (X_scaled_column F j I Fin Hj).
    now rewrite (X_features_column F j I Fin Hj).
Qed.

Lemma encoder_normalizer_shape_witness :
  exists (df df_encoded : loc) (X_scaled : matrix) s',
    run_to_cell2 example_externals wide_table empty_session
    = (inr (df, (df_encoded, X_scaled)), s')
    /\ length X_scaled = 2%nat
    /\ Forall (fun r => length r = 41%nat) X_scaled
    /\ forall j, (j < 41)%nat ->
         column_of j X_scaled
         = scaled_column
             (encoded_values
                (nth (feature_index j) (fields wide_table) (Object []))).
Proof.
  apply (encoder_normalizer_shape example_externals empty_session wide_table).
  - exact (proj1 wide_table_input).
  - exact (proj2 wide_table_input).
Defined.

Lemma infinite_table_refused :
  StandardScaler_fit_transform (features_of (header_none infinite_table))
  = inl ValueError.
Proof. reflexivity. Qed.

(** C3, the claim as stated, fails: [infinite_table] is an input table, of 42
    columns and two rows, with the field [inf] in one feature; the scaler
    refuses it with [ValueError] and the Encoder/Normalizer returns no
    matrix. *)
Lemma encoder_normalizer_infinite_field :
  input_table infinite_table
  /\ nth_error (fields infinite_table) 40
     = Some (Float64 [finite 1; infinity false])
  /\ fst (run_to_cell2 example_externals infinite_table empty_session)
     = inl ValueError.
Proof.
  split; [exact infinite_table_input |]. split; [reflexivity |].
  destruct infinite_table_input as (R & _ & Hp & _).
  rewrite (run_to_cell2_run example_externals empty_session _ R Hp).
  now rewrite infinite_table_refused.
Qed.

(** C8 (as amended). When a column handed to the scaler has zero variance,
    the Encoder/Normalizer (on an input table without infinite fields) does
    not fail: the scaler sets the scale of that column to one, and every
    entry of the column of the Normalized Matrix is the entry minus the
    column mean. *)
Theorem zero_variance_column_is_centred
  (L : externals) (s : session L) (F : raw_table) (X0 : matrix) (j : nat) :
  input_table F ->
  finite_fields F ->
  to_numpy (features_of (header_none F)) = inr X0 ->
  (j < length (fields F) - 1)%nat ->
  np_var (column_of j X0) = 0 ->
  exists (df df_encoded : loc) (X_scaled : matrix) (s' : session L),
    run_to_cell2 L F s = (inr (df, (df_encoded, X_scaled)), s')
    /\ X_scaled = StandardScaler_transform (StandardScaler_fit X0) X0
    /\ nth j (scale_ (StandardScaler_fit X0)) 0 = 1
    /\ column_of j X_scaled
       = map (fun x => x - np_mean (column_of j X0)) (column_of j X0).
Proof.
  intros I Fin E0 Hj Hvar.
  rewrite (to_numpy_features _ (header_none_finite F Fin)) in E0.
  injection E0 as <-.
  eexists _, _, _, _. split; [| split; [| split]].
  - apply (run_to_cell2_ok L s F I Fin).
  - reflexivity.
  - destruct I as (R & Hn & Hp & Hz).
    destruct (X_features_shape (header_none F) Hn) as [Hs _].
    rewrite scale_of_fit.
    + now apply scale_of_zero_variance.
    + rewrite Hs.
      pose proof (features_width (header_none F) (header_none_wf F R)
                    (proj2 (header_none_has_41 F) Hp)) as Hw.
      rewrite header_none_width in Hw. lia.
  - rewrite (X_scaled_column F j I Fin Hj). unfold scaled_column.
    rewrite (scale_of_zero_variance _ Hvar).
    apply map_ext. intro x. field.
Qed.

Lemma wide_table_features :
  to_numpy (features_of (header_none wide_table))
  = inr (X_features (header_none wide_table)).
Proof. apply to_numpy_features, header_none_finite, wide_table_input. Qed.

Lemma wide_table_first_feature :
  column_of 0 (X_features (header_none wide_table)) = [7; 7].
Proof. reflexivity. Qed.

Lemma np_var_constant_example : np_var [7; 7] = 0.
Proof. unfold np_var, np_mean. simpl. field. Qed.

Lemma zero_variance_column_is_centred_witness :
  let X0 := X_features (header_none wide_table) in
  exists (df df_encoded : loc) (X_scaled : matrix) s',
    run_to_cell2 example_externals wide_table empty_session
    = (inr (df, (df_encoded, X_scaled)), s')
    /\ X_scaled = StandardScaler_transform (StandardScaler_fit X0) X0
    /\ nth 0 (scale_ (StandardScaler_fit X0)) 0 = 1
    /\ column_of 0 X_scaled
       = map (fun x => x - np_mean (column_of 0 X0)) (column_of 0 X0).
Proof.
  intro X0.
  apply (zero_variance_column_is_centred
           example_externals empty_session wide_table X0 0).
  - exact (proj1 wide_table_input).
  - exact (proj2 wide_table_input).
  - exact wide_table_features.
  - simpl. lia.
  - unfold X0. rewrite wide_table_first_feature. exact np_var_constant_example.
Defined.

(** C8, the claim as stated, fails: the first feature of [wide_table] is the
    constant column [7, 7], of variance zero, and the Encoder/Normalizer
    returns a matrix instead of raising. *)
Lemma zero_variance_does_not_raise :
  nth_error (fields wide_table) 0 = Some (Int64 [7%Z; 7%Z])
  /\ np_var (float_values (Int64 [7%Z; 7%Z])) = 0
  /\ exists out s',
       run_to_cell2 example_externals wide_table empty_session = (inr out, s').
Proof.
  split; [reflexivity |]. split; [exact np_var_constant_example |].
  eexists _, _. apply run_to_cell2_ok; apply wide_table_input.
Qed.

(** ** Cells 3, 4 and 5 *)

Lemma predict_from_scores_length c scores :
  length (predict_from_scores c scores) = length scores.
Proof.
  unfold predict_from_scores, decision_function. now rewrite !length_map.
Qed.

Lemma iforest_labels_length L X : length (iforest_labels L X) = length X.
Proof.
  unfold iforest_labels, fitted_scores.
  now rewrite predict_from_scores_length, length_map.
Qed.

Lemma losses_mse_length (X Y : matrix) :
  length X = length Y -> length (losses_mse X Y) = length X.
Proof.
  intro H. unfold losses_mse. rewrite length_map, length_combine. lia.
Qed.

Lemma mse_of_length L X w : length (mse_of L X w) = length X.
Proof. unfold mse_of. apply losses_mse_length. now rewrite length_map. Qed.

Lemma anomaly_autoencoder_length mse :
  length (anomaly_autoencoder mse) = length mse.
Proof. apply length_map. Qed.

Lemma true_label_length raw : length (true_label raw) = Series_len raw.
Proof.
  unfold true_label. rewrite length_map.
  destruct raw; simpl; apply length_map.
Qed.

Lemma classification_report_ok y_true y_pred :
  y_true <> [] ->
  length y_true = length y_pred ->
  classification_report y_true y_pred = inr (report_of y_true y_pred).
Proof.
  intros N H. unfold classification_report. rewrite H, Nat.eqb_refl.
  destruct y_true; [contradiction | reflexivity].
Qed.

Lemma check_array_ok (X : matrix) :
  X <> [] -> hd [] X <> [] -> check_array X = inr X.
Proof.
  intros N1 N2. unfold check_array, shape.
  destruct X as [| r X]; [contradiction |]. simpl in *.
  destruct r; [contradiction | reflexivity].
Qed.

Section Scoring.

Context (L : externals).

Implicit Types (s : session L) (l : loc) (d : DataFrame) (X : matrix).

Lemma IsolationForest_fit_predict_run s X :
  IsolationForest_fit_predict L iso_forest X s
  = match check_array X with
    | inl e => (inl e, s)
    | inr _ => (inr (iforest_labels L X), s)
    end.
Proof.
  unfold IsolationForest_fit_predict, bind, lift.
  destruct (check_array X) as [e | X'] eqn:E; [reflexivity |].
  assert (X' = X) as ->.
  { unfold check_array in E. destruct (shape X) as [[| n] [| p]];
      try discriminate. now injection E. }
  reflexivity.
Qed.

Lemma cell_iforest_run s l d X :
  frames s !! l = Some d ->
  check_array X = inr X ->
  length X = index_len d ->
  cell_iforest L l X s
  = (inr (iforest_labels L X),
     mkSession
       (<[l := mkDataFrame (index_len d)
                 (set_column (LStr "anomaly_iforest")
                    (Int64 (iforest_labels L X)) (columns d))]> (frames s))
       (entropy s)).
Proof.
  intros Hl Hc Hn. unfold cell_iforest.
  erewrite bind_run; [| rewrite IsolationForest_fit_predict_run, Hc; reflexivity].
  erewrite bind_run; [reflexivity |].
  apply setitem_run; [exact Hl |]. simpl. now rewrite iforest_labels_length.
Qed.

Lemma Sequential_fit_run s X :
  Sequential_fit L X s
  = (inr (fst (keras_fit L X (entropy s))),
     mkSession (frames s) (snd (keras_fit L X (entropy s)))).
Proof.
  unfold Sequential_fit. now destruct (keras_fit L X (entropy s)).
Qed.

Lemma cell_autoencoder_run s l d X :
  frames s !! l = Some d ->
  length X = index_len d ->
  cell_autoencoder L l X s
  = (inr (mse_of L X (entropy s), anomaly_autoencoder (mse_of L X (entropy s))),
     mkSession
       (<[l := mkDataFrame (index_len d)
                 (set_column (LStr "anomaly_autoencoder")
                    (Int64 (anomaly_autoencoder (mse_of L X (entropy s))))
                    (columns d))]> (frames s))
       (snd (keras_fit L X (entropy s)))).
Proof.
  intros Hl Hn. unfold cell_autoencoder.
  rewrite (bind_run L _ _ _ _ _ (Sequential_fit_run s X)).
  fold (mse_of L X (entropy s)).
  erewrite bind_run; [reflexivity |].
  rewrite (setitem_run L _ l d); [reflexivity | exact Hl |].
  simpl. now rewrite anomaly_autoencoder_length, mse_of_length.
Qed.

End Scoring.

(** ** The whole notebook on a table of the expected layout *)

Lemma get_column_label_from cs : forall i k c,
  nth_error cs k = Some c ->
  get_column (LInt (Z.of_nat (i + k))) (label_from i cs) = Some c.
Proof.
  induction cs as [| c0 cs IH]; intros i k c H.
  - destruct k; discriminate.
  - simpl. destruct k as [| k]; simpl in H.
    + injection H as ->. rewrite Nat.add_0_r. now rewrite decide_True.
    + rewrite decide_False by (intro E; injection E as E; lia).
      replace (i + S k)%nat with (S i + k)%nat by lia. now apply IH.
Qed.


Lemma raw_label_length F :
  rectangular F -> (42 <= length (fields F))%nat ->
  Series_len (raw_label F) = n_rows F.
Proof.
  intros R H. unfold rectangular in R. rewrite List.Forall_forall in R.
  apply R. unfold raw_label. apply nth_In. lia.
Qed.

Lemma X_of_inr F X :
  StandardScaler_fit_transform (features_of (header_none F)) = inr X ->
  X_of F = X.
Proof. intro E. unfold X_of. now rewrite E. Qed.

Lemma X_of_checked F X :
  StandardScaler_fit_transform (features_of (header_none F)) = inr X ->
  check_array (X_of F) = inr (X_of F) /\ length (X_of F) = n_rows F.
Proof.
  intro E. rewrite (X_of_inr F X E).
  apply (fit_transform_checked (features_of (header_none F)) X E).
Qed.

Section Whole.

Context (L : externals).

Implicit Types (s : session L) (F : raw_table).

Lemma df_encoded_loc_ne s F : df_loc s <> df_encoded_loc s F.
Proof.
  unfold df_encoded_loc, df_loc. intro E.
  apply (is_fresh (dom (frames (loaded s F)))). rewrite <- E.
  simpl. apply elem_of_dom. rewrite lookup_insert_eq. eauto.
Qed.

Lemma run_to_cell3_run s F X :
  rectangular F -> (42 <= length (fields F))%nat ->
  StandardScaler_fit_transform (features_of (header_none F)) = inr X ->
  run_to_cell3 L F s
  = (inr (df_loc s, (df_encoded_loc s F, X_of F), iforest_labels L (X_of F)),
     session_after_cell3 s F).
Proof.
  intros R Hp E. unfold run_to_cell3.
  destruct (X_of_checked F X E) as [Hc Hn].
  pose proof (run_to_cell2_run L s F R Hp) as E2. rewrite E in E2.
  rewrite <- (X_of_inr F X E) in E2.
  rewrite (bind_run L _ _ _ _ _ E2).
  cbn [fst snd].
  assert (frames (encoded s F) !! df_encoded_loc s F
          = Some (encoded_frame (header_none F))) as Hl
    by (simpl; apply lookup_insert_eq).
  erewrite bind_run; [reflexivity |].
  rewrite (cell_iforest_run L _ _ _ _ Hl Hc).
  - unfold session_after_cell3, columns_after_cell3. simpl.
    now rewrite insert_insert_eq.
  - simpl. exact Hn.
Qed.

Lemma run_to_cell4_run s F X :
  rectangular F -> (42 <= length (fields F))%nat ->
  StandardScaler_fit_transform (features_of (header_none F)) = inr X ->
  run_to_cell4 L F s = (inr (values_of s F), session_after_cell4 s F).
Proof.
  intros R Hp E. unfold run_to_cell4.
  rewrite (bind_run L _ _ _ _ _ (run_to_cell3_run s F X R Hp E)).
  cbn [fst snd].
  assert (frames (session_after_cell3 s F) !! df_encoded_loc s F
          = Some (mkDataFrame (n_rows F) (columns_after_cell3 L F))) as Hl
    by (simpl; apply lookup_insert_eq).
  erewrite bind_run; [reflexivity |].
  rewrite (cell_autoencoder_run L _ _ _ _ Hl).
  - unfold session_after_cell4, columns_after_cell4. simpl.
    now rewrite insert_insert_eq.
  - simpl. now destruct (X_of_checked F X E).
Qed.

(** Cell 5 stops the run: the notebook ends with [SyntaxError] in the
    session cell 4 has left. *)
Lemma notebook_run s F X :
  rectangular F -> (42 <= length (fields F))%nat ->
  StandardScaler_fit_transform (features_of (header_none F)) = inr X ->
  notebook L F s = (inl SyntaxError, session_after_cell4 s F).
Proof.
  intros R Hp E. unfold notebook.
  rewrite (bind_run L _ _ _ _ _ (run_to_cell4_run s F X R Hp E)).
  reflexivity.
Qed.

Lemma run_to_cell4_ok s F :
  input_table F -> finite_fields F ->
  run_to_cell4 L F s = (inr (values_of s F), session_after_cell4 s F).
Proof.
  intros I Fin. pose proof (input_table_scaled F I Fin) as E.
  destruct I as (R & _ & Hp & _). exact (run_to_cell4_run s F _ R Hp E).
Qed.

Lemma notebook_ok s F :
  input_table F -> finite_fields F ->
  notebook L F s = (inl SyntaxError, session_after_cell4 s F).
Proof.
  intros I Fin. pose proof (input_table_scaled F I Fin) as E.
  destruct I as (R & _ & Hp & _). exact (notebook_run s F _ R Hp E).
Qed.

(** The frames of the session in which cell 5 is entered. *)
Lemma session_after_cell4_frames s F :
  frames (session_after_cell4 s F) !! df_loc s = Some (header_none F)
  /\ frames (session_after_cell4 s F) !! df_encoded_loc s F
     = Some (mkDataFrame (n_rows F) (columns_after_cell4 s F)).
Proof.
  split; simpl.
  - rewrite lookup_insert_ne by (apply not_eq_sym, df_encoded_loc_ne).
    apply lookup_insert_eq.
  - apply lookup_insert_eq.
Qed.

End Whole.

(** ** No cell writes to the loaded frame *)

Section Frame.

Context (L : externals) (l : loc) (T : DataFrame).





Lemma preserves_any {A} (m : py L A) (Q : A -> Prop) :
  preserves L l T m Q -> preserves L l T m (fun _ => True).
Proof. intros Hm s H. split; [apply (Hm s H) | trivial]. Qed.

















End Frame.

Section Stages.

Context (L : externals).

Implicit Types (s : session L) (F : raw_table).






End Stages.



Lemma encoded_has_no_result_column (F : raw_table) (name : string) :
  get_column (LStr name) (encode_columns (columns (header_none F))) = None.
Proof.
  apply get_column_None. rewrite encode_columns_labels. simpl.
  rewrite label_from_labels. intro I. apply in_map_iff in I.
  destruct I as [j [E _]]. discriminate.
Qed.



(** ** The label column does not reach the scorers *)

Lemma features_agree cs1 : forall cs2 i,
  length cs1 = length cs2 ->
  (forall j, (i + j)%nat <> 41%nat -> nth_error cs1 j = nth_error cs2 j) ->
  drop_column (LInt 41) (encode_columns (label_from i cs1))
  = drop_column (LInt 41) (encode_columns (label_from i cs2)).
Proof.
  induction cs1 as [| c1 cs1 IH]; intros [| c2 cs2] i Hlen H;
    try discriminate; [reflexivity |].
  simpl in Hlen. injection Hlen as Hlen.
  assert (drop_column (LInt 41) (encode_columns (label_from (S i) cs1))
          = drop_column (LInt 41) (encode_columns (label_from (S i) cs2))) as T.
  { apply IH; [exact Hlen |]. intros j Hj.
    apply (H (S j)). lia. }
  unfold drop_column, encode_columns in *. simpl.
  destruct (decide (i = 41%nat)) as [-> | N].
  - rewrite !bool_decide_true by reflexivity. simpl. exact T.
  - rewrite !bool_decide_false by (intro E; injection E as E; lia). simpl.
    assert (c1 = c2) as ->.
    { specialize (H 0%nat). simpl in H. rewrite Nat.add_0_r in H.
      specialize (H N). now injection H. }
    now rewrite T.
Qed.

Lemma features_of_agree F1 F2 :
  agree_off_label F1 F2 ->
  features_of (header_none F1) = features_of (header_none F2).
Proof.
  intros [Hn [Hl H]]. unfold features_of. simpl. rewrite Hn.
  now rewrite (features_agree (fields F1) (fields F2) 0 Hl H).
Qed.

Section LabelIndependence.

Context (L : externals).

Implicit Types (s : session L) (F : raw_table).

(** The labels of a run are decided by the frame handed to the scaler. *)
Lemma scorer_labels_cases s F :
  rectangular F ->
  scorer_labels_of L F s
  = if (length (fields F) <? 42)%nat then inl KeyError
    else match StandardScaler_fit_transform (features_of (header_none F)) with
         | inl e => inl e
         | inr X =>
             inr (iforest_labels L X,
                  anomaly_autoencoder (mse_of L X (entropy s)))
         end.
Proof.
  intro R. unfold scorer_labels_of.
  destruct (Nat.ltb_spec (length (fields F)) 42) as [Hp | Hp].
  - unfold run_to_cell4, run_to_cell3.
    now rewrite (bind_fail L _ _ _ _ _
                   (bind_fail L _ _ _ _ _ (run_to_cell2_narrow L s F R Hp))).
  - destruct (StandardScaler_fit_transform (features_of (header_none F)))
      as [e | X] eqn:E.
    + pose proof (run_to_cell2_run L s F R Hp) as E2. rewrite E in E2.
      unfold run_to_cell4, run_to_cell3.
      now rewrite (bind_fail L _ _ _ _ _ (bind_fail L _ _ _ _ _ E2)).
    + rewrite (run_to_cell4_run L s F X R Hp E). unfold values_of.
      cbn [fst snd]. now rewrite (X_of_inr F X E).
Qed.

End LabelIndependence.

(** C10. Two runs from the same session on tables that agree on everything
    but the content of column 41 give the same Isolation-Forest labels and
    the same Autoencoder labels (or stop with the same exception). *)
Theorem scorers_ignore_label_column
  (L : externals) (s : session L) (F1 F2 : raw_table) :
  rectangular F1 ->
  rectangular F2 ->
  agree_off_label F1 F2 ->
  scorer_labels_of L F1 s = scorer_labels_of L F2 s.
Proof.
  intros R1 R2 A.
  rewrite (scorer_labels_cases L s F1 R1), (scorer_labels_cases L s F2 R2).
  rewrite (features_of_agree F1 F2 A). destruct A as [_ [-> _]]. reflexivity.
Qed.

Lemma wide_tables_agree : agree_off_label wide_table wide_table_relabelled.
Proof.
  split; [reflexivity |]. split; [reflexivity |].
  intros j Hj. do 41 (destruct j as [| j]; [reflexivity |]).
  destruct j as [| j]; [contradiction | reflexivity].
Qed.

Lemma scorers_ignore_label_column_witness :
  scorer_labels_of example_externals wide_table empty_session
  = scorer_labels_of example_externals wide_table_relabelled empty_session.
Proof.
  apply scorers_ignore_label_column.
  - exact wide_table_rectangular.
  - unfold rectangular, wide_table_relabelled. simpl. repeat constructor.
  - exact wide_tables_agree.
Defined.

(** ** Sorting and the percentile *)

Lemma insert_sorted_perm x l : Permutation (insert_sorted x l) (x :: l).
Proof.
  induction l as [| y l IH]; simpl; [reflexivity |].
  destruct (Rle_dec x y); [reflexivity |].
  rewrite IH. apply perm_swap.
Qed.

Lemma np_sort_perm a : Permutation (np_sort a) a.
Proof.
  induction a as [| x a IH]; simpl; [reflexivity |].
  rewrite insert_sorted_perm. now constructor.
Qed.

Lemma np_sort_length a : length (np_sort a) = length a.
Proof. apply Permutation_length, np_sort_perm. Qed.

Lemma insert_sorted_sorted x l :
  StronglySorted Rle l -> StronglySorted Rle (insert_sorted x l).
Proof.
  induction 1 as [| y l S IH F]; simpl.
  - constructor; constructor.
  - destruct (Rle_dec x y) as [Hxy | Hxy].
    + constructor; [now constructor |]. constructor; [exact Hxy |].
      eapply List.Forall_impl; [| exact F]. intros z Hz. cbv beta in Hz. lra.
    + constructor; [exact IH |].
      eapply Permutation_Forall; [symmetry; apply insert_sorted_perm |].
      constructor; [lra | exact F].
Qed.

Lemma np_sort_sorted a : StronglySorted Rle (np_sort a).
Proof.
  induction a as [| x a IH]; simpl; [constructor |].
  now apply insert_sorted_sorted.
Qed.

Lemma sorted_nth l : StronglySorted Rle l ->
  forall i j, (i <= j)%nat -> (j < length l)%nat -> nth i l 0 <= nth j l 0.
Proof.
  induction 1 as [| y l S IH F]; intros i j Hij Hj; [simpl in Hj; lia |].
  destruct j as [| j].
  - replace i with 0%nat by lia. simpl. lra.
  - simpl in Hj. destruct i as [| i].
    + simpl. rewrite List.Forall_forall in F. apply F. apply nth_In. lia.
    + simpl. apply IH; lia.
Qed.

Lemma below_app t a b : below t (a ++ b) = below t a ++ below t b.
Proof. apply List.filter_app. Qed.

Lemma below_perm t a b :
  Permutation a b -> length (below t a) = length (below t b).
Proof.
  induction 1 as [| x a b P IH | x y a | a b c P1 IH1 P2 IH2]; simpl.
  - reflexivity.
  - destruct (Rlt_dec x t); simpl; now rewrite IH.
  - destruct (Rlt_dec x t), (Rlt_dec y t); reflexivity.
  - congruence.
Qed.

Lemma below_length_le t a : (length (below t a) <= length a)%nat.
Proof.
  induction a as [| x a IH]; simpl; [lia |].
  destruct (Rlt_dec x t); simpl; lia.
Qed.

Lemma below_none t a : Forall (fun x => t <= x) a -> below t a = [].
Proof.
  induction 1 as [| x a Hx F IH]; simpl; [reflexivity |].
  destruct (Rlt_dec x t); [lra | exact IH].
Qed.

Lemma below_all t a : Forall (fun x => x < t) a -> below t a = a.
Proof.
  induction 1 as [| x a Hx F IH]; simpl; [reflexivity |].
  destruct (Rlt_dec x t); [now rewrite IH | contradiction].
Qed.

Lemma Forall_skipn_nth (P : R -> Prop) l h :
  (forall i, (h <= i)%nat -> (i < length l)%nat -> P (nth i l 0)) ->
  Forall P (skipn h l).
Proof.
  intro H. apply List.Forall_forall. intros x I.
  apply (In_nth _ _ 0) in I. destruct I as [i [Hi E]].
  rewrite length_skipn in Hi. rewrite nth_skipn in E. subst x.
  apply H; lia.
Qed.

Lemma Forall_firstn_nth (P : R -> Prop) l h :
  (forall i, (i < h)%nat -> (i < length l)%nat -> P (nth i l 0)) ->
  Forall P (firstn h l).
Proof.
  intro H. apply List.Forall_forall. intros x I.
  apply (In_nth _ _ 0) in I. destruct I as [i [Hi E]].
  rewrite length_firstn in Hi. rewrite nth_firstn in E.
  destruct (Nat.ltb_spec i h) as [Hih | Hih]; [| lia].
  subst x. apply H; lia.
Qed.

(** In a sorted array, at most [h] entries are below a threshold that does
    not exceed the entry at position [h]. *)
Lemma below_sorted_upper l t h :
  StronglySorted Rle l ->
  (h < length l)%nat ->
  t <= nth h l 0 ->
  (length (below t l) <= h)%nat.
Proof.
  intros S Hh Ht. rewrite <- (firstn_skipn h l), below_app, length_app.
  rewrite (below_none t (skipn h l)).
  - pose proof (below_length_le t (firstn h l)) as B.
    rewrite length_firstn in B. simpl. lia.
  - apply Forall_skipn_nth. intros i Hi Hl.
    pose proof (sorted_nth l S h i Hi Hl). lra.
Qed.

(** In a sorted array without repetition, the [k] entries before position
    [k] are below every threshold that reaches the entry at position [k]. *)
Lemma below_sorted_lower l t k :
  StronglySorted Rle l ->
  List.NoDup l ->
  (k < length l)%nat ->
  nth k l 0 <= t ->
  (k <= length (below t l))%nat.
Proof.
  intros S ND Hk Ht. rewrite <- (firstn_skipn k l), below_app, length_app.
  rewrite (below_all t (firstn k l)).
  - rewrite length_firstn. lia.
  - apply Forall_firstn_nth. intros i Hi Hl.
    pose proof (sorted_nth l S i k ltac:(lia) Hk) as Hle.
    assert (nth i l 0 <> nth k l 0) as Hne.
    { intro E. apply (proj1 (NoDup_nth l 0) ND) in E; lia. }
    lra.
Qed.

Lemma is_inlier_cases (d : R) :
  (d < 0 /\ is_inlier d = (-1)%Z) \/ (~ d < 0 /\ is_inlier d = 1%Z).
Proof. unfold is_inlier. destruct (Rlt_dec d 0); auto. Qed.

Lemma count_anomalous_below_offset (offset_ : R) (a : list R) :
  count_anomalous (map is_inlier (decision_function offset_ a))
  = length (below offset_ a).
Proof.
  unfold count_anomalous, decision_function.
  induction a as [| x a IH]; [reflexivity |].
  cbn [map below List.filter]. fold (below offset_ a).
  destruct (is_inlier_cases (x - offset_)) as [[H E] | [H E]];
    destruct (Rlt_dec x offset_) as [H' | H']; try lra.
  - rewrite count_occ_cons_eq by exact E. simpl. now rewrite IH.
  - rewrite count_occ_cons_neq by (rewrite E; discriminate). exact IH.
Qed.

Lemma count_anomalous_below (c : R) (a : list R) :
  count_anomalous (predict_from_scores c a)
  = length (below (np_percentile a (100 * c)) a).
Proof. unfold predict_from_scores. apply count_anomalous_below_offset. Qed.

(** The virtual index of the percentile [100 * 0.05] in an array of [m + 1]
    entries is [m / 20]: its floor and its fractional part. *)
Lemma virtual_index_floor (m : nat) :
  Int_part (100 * (5 / 100) / 100 * INR m) = Z.of_nat (m / 20)
  /\ 0 <= 100 * (5 / 100) / 100 * INR m - INR (m / 20) < 1.
Proof.
  pose proof (Nat.div_mod_eq m 20) as E.
  pose proof (Nat.mod_upper_bound m 20 ltac:(lia)) as B.
  set (k := (m / 20)%nat) in *. set (r := (m mod 20)%nat) in *.
  assert (INR m = 20 * INR k + INR r) as Em.
  { rewrite E at 1. rewrite plus_INR, mult_INR.
    replace (INR 20) with 20 by (simpl; lra). reflexivity. }
  assert (0 <= INR r <= 19) as Br.
  { split; [apply pos_INR |].
    replace 19 with (INR 19) by (simpl; lra). apply le_INR. lia. }
  assert (100 * (5 / 100) / 100 * INR m = INR k + INR r / 20) as Ev.
  { rewrite Em. field. }
  rewrite Ev. split; [| lra].
  symmetry. apply Int_part_spec. rewrite <- INR_IZR_INZ. lra.
Qed.

Lemma percentile_between (a : list R) :
  a <> [] ->
  let k := ((length a - 1) / 20)%nat in
  let h := Nat.min (k + 1) (length a - 1) in
  (k < length a)%nat /\ (h < length a)%nat /\ (h <= k + 1)%nat
  /\ nth k (np_sort a) 0 <= np_percentile a (100 * (5 / 100))
     <= nth h (np_sort a) 0.
Proof.
  intros N k h.
  assert (0 < length a)%nat as Hn by (destruct a; [contradiction | simpl; lia]).
  pose proof (Nat.div_mod_eq (length a - 1) 20) as E. fold k in E.
  assert (k <= length a - 1)%nat as Hk by lia.
  split; [lia |]. split; [unfold h; lia |]. split; [unfold h; lia |].
  unfold np_percentile. cbv zeta.
  destruct (virtual_index_floor (length a - 1)) as [EI G]. fold k in EI, G.
  rewrite EI, Nat2Z.id. fold h.
  pose proof (sorted_nth (np_sort a) (np_sort_sorted a) k h) as S.
  rewrite np_sort_length in S.
  assert (nth k (np_sort a) 0 <= nth h (np_sort a) 0) as Hle
    by (apply S; unfold h; lia).
  unfold lerp.
  set (x := nth k (np_sort a) 0) in *. set (y := nth h (np_sort a) 0) in *.
  set (g := 100 * (5 / 100) / 100 * INR (length a - 1) - INR k) in *.
  split; nra.
Qed.

(** The number of rows marked anomalous on scores [a]: never more than
    [(n - 1) / 20 + 1]; at least [(n - 1) / 20] when no score repeats; zero
    when all scores are the same. *)
Lemma count_anomalous_upper (a : list R) :
  a <> [] ->
  (count_anomalous (predict_from_scores (5 / 100) a)
   <= (length a - 1) / 20 + 1)%nat.
Proof.
  intro N. rewrite count_anomalous_below.
  destruct (percentile_between a N) as [Hk [Hh [Hhk [_ Hp]]]].
  rewrite <- (below_perm _ _ _ (np_sort_perm a)).
  etransitivity; [| exact Hhk].
  apply below_sorted_upper.
  - apply np_sort_sorted.
  - now rewrite np_sort_length.
  - exact Hp.
Qed.

Lemma count_anomalous_lower (a : list R) :
  a <> [] -> List.NoDup a ->
  ((length a - 1) / 20
   <= count_anomalous (predict_from_scores (5 / 100) a))%nat.
Proof.
  intros N ND. rewrite count_anomalous_below.
  destruct (percentile_between a N) as [Hk [Hh [Hhk [Hp _]]]].
  rewrite <- (below_perm _ _ _ (np_sort_perm a)).
  apply below_sorted_lower.
  - apply np_sort_sorted.
  - eapply Permutation_NoDup; [symmetry; apply np_sort_perm | exact ND].
  - now rewrite np_sort_length.
  - exact Hp.
Qed.

Lemma count_anomalous_ties (a : list R) (v : R) :
  a <> [] -> Forall (fun x => x = v) a ->
  count_anomalous (predict_from_scores (5 / 100) a) = 0%nat.
Proof.
  intros N F. rewrite count_anomalous_below.
  destruct (percentile_between a N) as [Hk [Hh [_ [_ Hp]]]].
  assert (Forall (fun x => x = v) (np_sort a)) as Fs
    by (eapply Permutation_Forall; [symmetry; apply np_sort_perm | exact F]).
  rewrite List.Forall_forall in Fs.
  rewrite (Fs (nth _ (np_sort a) 0)) in Hp
    by (apply nth_In; now rewrite np_sort_length).
  rewrite below_none; [reflexivity |].
  eapply List.Forall_impl; [| exact F]. intros x ->. exact Hp.
Qed.

Lemma predict_from_scores_map (c : R) (scores : list R) :
  predict_from_scores c scores
  = map (fun sc => is_inlier (sc - np_percentile scores (100 * c))) scores.
Proof. unfold predict_from_scores, decision_function. apply map_map. Qed.

Lemma np_percentile_lerp (a : list R) :
  np_percentile a (100 * (5 / 100))
  = lerp (nth ((length a - 1) / 20) (np_sort a) 0)
         (nth (Nat.min ((length a - 1) / 20 + 1) (length a - 1)) (np_sort a) 0)
         (100 * (5 / 100) / 100 * INR (length a - 1)
          - INR ((length a - 1) / 20)).
Proof.
  unfold np_percentile. cbv zeta.
  destruct (virtual_index_floor (length a - 1)) as [EI _].
  now rewrite EI, Nat2Z.id.
Qed.

Lemma unique_minimum_sorted (a : list R) (i : nat) (sc : R) :
  nth_error a i = Some sc ->
  (forall j y, j <> i -> nth_error a j = Some y -> sc < y) ->
  exists rest, np_sort a = sc :: rest /\ Forall (fun y => sc < y) rest.
Proof.
  intros Hi Hmin.
  destruct (nth_error_split a i Hi) as [l1 [l2 [Ea El]]].
  assert (Forall (fun y => sc < y) (l1 ++ l2)) as Fo.
  { apply List.Forall_forall. intros y I. apply in_app_or in I.
    destruct I as [I | I]; apply In_nth_error in I; destruct I as [j Hj].
    - assert (j < length l1)%nat as Hlt
        by (apply nth_error_Some; rewrite Hj; discriminate).
      apply (Hmin j); [lia |]. now rewrite Ea, nth_error_app1.
    - apply (Hmin (S (length l1 + j))); [lia |].
      rewrite Ea, nth_error_app2 by lia.
      replace (S (length l1 + j) - length l1)%nat with (S j) by lia.
      exact Hj. }
  assert (Permutation (np_sort a) (sc :: l1 ++ l2)) as P.
  { rewrite np_sort_perm, Ea. symmetry. apply Permutation_middle. }
  destruct (np_sort a) as [| s0 rest] eqn:Es.
  - apply Permutation_length in P. discriminate.
  - assert (s0 = sc) as ->.
    { assert (sc <= s0) as H1.
      { assert (List.In s0 (sc :: l1 ++ l2)) as I
          by (apply (Permutation_in _ P); now left).
        destruct I as [<- | I]; [lra |].
        rewrite List.Forall_forall in Fo. specialize (Fo _ I). lra. }
      assert (s0 <= sc) as H2.
      { pose proof (np_sort_sorted a) as S. rewrite Es in S.
        apply StronglySorted_inv in S. destruct S as [_ F].
        assert (List.In sc (s0 :: rest)) as I
          by (apply (Permutation_in _ (Permutation_sym P)); now left).
        destruct I as [-> | I]; [lra |].
        rewrite List.Forall_forall in F. now apply F. }
      lra. }
    exists rest. split; [reflexivity |].
    apply Permutation_cons_inv in P.
    eapply Permutation_Forall; [symmetry; exact P | exact Fo].
Qed.

Lemma percentile_above_unique_minimum (a : list R) (i : nat) (sc : R) :
  (2 <= length a)%nat ->
  nth_error a i = Some sc ->
  (forall j y, j <> i -> nth_error a j = Some y -> sc < y) ->
  sc < np_percentile a (100 * (5 / 100)).
Proof.
  intros Hn Hi Hmin.
  destruct (unique_minimum_sorted a i sc Hi Hmin) as [rest [Es Fr]].
  assert (length rest = (length a - 1)%nat) as Hr.
  { pose proof (np_sort_length a) as E. rewrite Es in E. simpl in E. lia. }
  assert (forall q, (1 <= q)%nat -> (q <= length a - 1)%nat ->
                    sc < nth q (np_sort a) 0) as Hq.
  { intros q H1 H2. rewrite Es. destruct q as [| q]; [lia |]. simpl.
    rewrite List.Forall_forall in Fr. apply Fr, nth_In. lia. }
  assert (a <> []) as N by (destruct a; [simpl in Hn; lia | discriminate]).
  pose proof (Nat.div_mod_eq (length a - 1) 20) as E.
  pose proof (Nat.mod_upper_bound (length a - 1) 20 ltac:(lia)) as B.
  destruct (Nat.eq_dec ((length a - 1) / 20)%nat 0%nat) as [K | K].
  - rewrite np_percentile_lerp, K. simpl Nat.add.
    replace (Nat.min 1 (length a - 1)%nat) with 1%nat by lia.
    specialize (Hq 1%nat ltac:(lia) ltac:(lia)).
    rewrite Es in *. simpl nth in *. unfold lerp.
    assert (1 <= INR (length a - 1)) as Hm
      by (replace 1 with (INR 1) by reflexivity; apply le_INR; lia).
    simpl INR. nra.
  - destruct (percentile_between a N) as [_ [_ [_ [Hp _]]]].
    specialize (Hq ((length a - 1) / 20)%nat ltac:(lia) ltac:(lia)). lra.
Qed.

(** A score strictly below every other score is labelled [-1]. *)
Lemma lowest_score_flagged (scores : list R) (i : nat) (sc : R) :
  (2 <= length scores)%nat ->
  nth_error scores i = Some sc ->
  (forall j y, j <> i -> nth_error scores j = Some y -> sc < y) ->
  nth_error (predict_from_scores (5 / 100) scores) i = Some (-1)%Z.
Proof.
  intros Hn Hi Hmin. rewrite predict_from_scores_map.
  rewrite nth_error_map, Hi. simpl. f_equal.
  pose proof (percentile_above_unique_minimum scores i sc Hn Hi Hmin) as Hp.
  destruct (is_inlier_cases (sc - np_percentile scores (100 * (5 / 100))))
    as [[_ E] | [H _]]; [exact E | lra].
Qed.

(** ** The isolation forest *)

(** C5. With [random_state=42] the labels of [fit_predict] on a matrix are
    the same from any two sessions, the call leaves the session as it was,
    and two calls in a row return the same labels twice. *)
Theorem iforest_seeded_runs_agree
  (L : externals) (X : matrix) (s1 s2 : session L) :
  fst (IsolationForest_fit_predict L iso_forest X s1)
  = fst (IsolationForest_fit_predict L iso_forest X s2)
  /\ snd (IsolationForest_fit_predict L iso_forest X s1) = s1
  /\ fst (bind (IsolationForest_fit_predict L iso_forest X)
            (fun a => bind (IsolationForest_fit_predict L iso_forest X)
                        (fun b => ret (a, b))) s1)
     = match fst (IsolationForest_fit_predict L iso_forest X s1) with
       | inl e => inl e
       | inr a => inr (a, a)
       end.
Proof.
  unfold bind. rewrite !IsolationForest_fit_predict_run.
  destruct (check_array X) as [e | X'] eqn:E; simpl.
  - auto.
  - rewrite IsolationForest_fit_predict_run, E. simpl. auto.
Qed.

(** C7 (as amended). On a matrix with at least one row and one column the
    scorer returns one label per row; with [n] rows, at most
    [(n - 1) / 20 + 1] rows are labelled anomalous, and at least
    [(n - 1) / 20] when the scores of the rows are pairwise distinct. *)
Theorem iforest_anomalous_count (L : externals) (X : matrix) (s : session L) :
  check_array X = inr X ->
  exists labels,
    IsolationForest_fit_predict L iso_forest X s = (inr labels, s)
    /\ length labels = length X
    /\ (count_anomalous labels <= (length X - 1) / 20 + 1)%nat
    /\ (List.NoDup (fitted_scores L X) ->
        ((length X - 1) / 20 <= count_anomalous labels)%nat).
Proof.
  intro HX. exists (iforest_labels L X).
  rewrite IsolationForest_fit_predict_run, HX.
  assert (fitted_scores L X <> []) as N.
  { unfold fitted_scores. destruct X; [discriminate HX | discriminate]. }
  assert (length (fitted_scores L X) = length X) as El
    by (unfold fitted_scores; apply length_map).
  split; [reflexivity |]. split; [apply iforest_labels_length |].
  unfold iforest_labels. rewrite <- El. split.
  - now apply count_anomalous_upper.
  - intro ND. now apply count_anomalous_lower.
Qed.

Lemma three_rows_scores : fitted_scores example_externals three_rows = [1; 2; 3].
Proof. reflexivity. Qed.

Lemma iforest_anomalous_count_witness :
  exists labels,
    IsolationForest_fit_predict example_externals iso_forest three_rows
      empty_session = (inr labels, empty_session)
    /\ length labels = 3%nat
    /\ (count_anomalous labels <= 1)%nat
    /\ (List.NoDup (fitted_scores example_externals three_rows) ->
        (0 <= count_anomalous labels)%nat).
Proof.
  apply (iforest_anomalous_count example_externals three_rows empty_session).
  reflexivity.
Defined.

Lemma repeat_nonempty {A} (x : A) (n : nat) :
  (0 < n)%nat -> repeat x n <> [] /\ hd x (repeat x n) = x.
Proof. destruct n; [lia |]. simpl. split; [discriminate | reflexivity]. Qed.

Lemma identical_rows_count (L : externals) (r : list R) (n : nat) :
  (0 < n)%nat ->
  count_anomalous (iforest_labels L (repeat r n)) = 0%nat.
Proof.
  intro Hn. unfold iforest_labels.
  set (f := grow_forest L (RandomState_seed L 42) (repeat r n)).
  apply (count_anomalous_ties _ (forest_score L f r)).
  - unfold fitted_scores. fold f. destruct n; [lia | discriminate].
  - unfold fitted_scores. fold f. apply List.Forall_map.
    apply List.Forall_forall. intros x I. apply repeat_spec in I. now subst x.
Qed.

(** C7, the claim as stated, fails: on ten thousand identical rows the
    scorer labels no row anomalous, whatever forest is grown, so the count
    is outside every tolerance band around 500 that is narrower than 500. *)
Lemma iforest_identical_rows_none_anomalous :
  ~ (exists tol : Z,
       (tol < 500)%Z
       /\ forall (L : externals) (X : matrix) (s : session L) labels s',
            Z.of_nat (length X) = 10000%Z ->
            IsolationForest_fit_predict L iso_forest X s = (inr labels, s') ->
            (500 - tol <= Z.of_nat (count_anomalous labels) <= 500 + tol)%Z).
Proof.
  intros [tol [Ht H]].
  assert (0 < Z.to_nat 10000)%nat as Hn by lia.
  specialize (H example_externals identical_rows empty_session
                (iforest_labels example_externals identical_rows) empty_session).
  unfold identical_rows in H.
  rewrite identical_rows_count in H by exact Hn.
  rewrite repeat_length in H.
  assert (500 - tol <= Z.of_nat 0 <= 500 + tol)%Z as B; [| simpl in B; lia].
  apply H; [lia |].
  rewrite IsolationForest_fit_predict_run, check_array_ok; [reflexivity | |].
  - apply (repeat_nonempty (repeat 0 41)), Hn.
  - destruct (Z.to_nat 10000); [lia | discriminate].
Qed.

(** Without a seed the scorer draws from the process-wide source, and two
    sessions can then disagree: the seed is what makes C5 hold. *)
Lemma unseeded_fit_predict (L : externals) (X : matrix) (s : session L) :
  check_array X = inr X ->
  fst (IsolationForest_fit_predict L unseeded_forest X s)
  = inr (predict_from_scores (5 / 100)
           (map (forest_score L
                   (grow_forest L (fst (global_RandomState L (entropy s))) X))
                X)).
Proof.
  intro HX. unfold IsolationForest_fit_predict, bind, lift. rewrite HX.
  simpl. now destruct (global_RandomState L (entropy s)).
Qed.

Lemma ramp_scores_NoDup : List.NoDup (map (fun r : list R => hd 0 r) ramp).
Proof.
  unfold ramp. rewrite map_map. simpl hd.
  apply Finite.Injective_map_NoDup; [| apply seq_NoDup].
  intros a b E. now apply INR_eq.
Qed.

Lemma unseeded_runs_can_differ :
  fst (IsolationForest_fit_predict coin_externals unseeded_forest ramp
         (@mkSession coin_externals ∅ true))
  <> fst (IsolationForest_fit_predict coin_externals unseeded_forest ramp
            (@mkSession coin_externals ∅ false)).
Proof.
  rewrite !unseeded_fit_predict by reflexivity.
  change (@inr exn (list Z)
            (predict_from_scores (5 / 100) (map (fun r : list R => hd 0 r) ramp))
          <> inr (predict_from_scores (5 / 100)
                    (map (fun _ : list R => 0) ramp))).
  intro E.
  apply (f_equal (fun r : exn + list Z =>
                    match r with
                    | inl _ => 0%nat
                    | inr a => count_anomalous a
                    end)) in E.
  cbv beta iota in E.
  pose proof (count_anomalous_lower (map (fun r : list R => hd 0 r) ramp)
                ltac:(discriminate) ramp_scores_NoDup) as Lo.
  rewrite (count_anomalous_ties (map (fun _ : list R => 0) ramp) 0) in E.
  - rewrite E in Lo. rewrite length_map in Lo.
    change (length ramp) with 21%nat in Lo.
    change ((21 - 1) / 20)%nat with 1%nat in Lo. lia.
  - discriminate.
  - apply List.Forall_map, List.Forall_forall. reflexivity.
Qed.

Lemma labels_follow_decisions (offset_ : R) (scores : list R) :
  Forall2 (fun d lab => (d < 0 /\ lab = (-1)%Z) \/ (~ d < 0 /\ lab = 1%Z))
          (decision_function offset_ scores)
          (map is_inlier (decision_function offset_ scores)).
Proof.
  induction (decision_function offset_ scores) as [| d ds IH]; simpl;
    constructor; [apply is_inlier_cases | exact IH].
Qed.

(** The forest of the notebook labels every row [-1] or [+1]. *)
Lemma iforest_labels_sentinels (L : externals) (X : matrix) :
  Forall (fun lab => lab = (-1)%Z \/ lab = 1%Z) (iforest_labels L X).
Proof.
  unfold iforest_labels. rewrite predict_from_scores_map.
  apply List.Forall_map, List.Forall_forall. intros sc _.
  destruct (is_inlier_cases (sc - np_percentile (fitted_scores L X)
                                       (100 * (5 / 100))))
    as [[_ E] | [_ E]]; auto.
Qed.

(** C6. Whenever the Isolation-Forest Scorer returns, every label is [-1]
    for a row whose decision value is negative (judged anomalous) and [+1]
    otherwise, and in a run on an input table these sentinels are what the
    column ['anomaly_iforest'] of the working copy holds when cell 5 is
    entered.  The Evaluator does not go on from there: cell 5 raises
    [SyntaxError] before any of its statements, so the comparison with [-1]
    is not evaluated and no report is computed; the run ends in the session
    cell 4 has left. *)
Theorem iforest_sentinels_and_report
  (L : externals) (s : session L) (F : raw_table) :
  (forall X s0,
     match fst (IsolationForest_fit_predict L iso_forest X s0) with
     | inr labels =>
         Forall2
           (fun d lab => (d < 0 /\ lab = (-1)%Z) \/ (~ d < 0 /\ lab = 1%Z))
           (decision_function
              (np_percentile (fitted_scores L X) (100 * (5 / 100)))
              (fitted_scores L X))
           labels
     | inl e => check_array X = inl e
     end)
  /\ (input_table F ->
      finite_fields F ->
      exists df df_encoded X a b s4 d,
        run_to_cell4 L F s = (inr (df, (df_encoded, X), a, b), s4)
        /\ frames s4 !! df_encoded = Some d
        /\ get_column (LStr "anomaly_iforest") (columns d) = Some (Int64 a)
        /\ Forall (fun lab => lab = (-1)%Z \/ lab = 1%Z) a
        /\ cell_evaluate L df df_encoded s4 = (inl SyntaxError, s4)
        /\ notebook L F s = (inl SyntaxError, s4)).
Proof.
  split.
  - intros X s0. rewrite IsolationForest_fit_predict_run.
    destruct (check_array X) as [e | X']; simpl; [reflexivity |].
    apply labels_follow_decisions.
  - intros I Fin.
    destruct (session_after_cell4_frames L s F) as [_ Hl].
    exists (df_loc s), (df_encoded_loc s F), (X_of F),
      (iforest_labels L (X_of F)),
      (mse_of L (X_of F) (entropy s),
       anomaly_autoencoder (mse_of L (X_of F) (entropy s))),
      (session_after_cell4 s F),
      (mkDataFrame (n_rows F) (columns_after_cell4 s F)).
    split; [exact (run_to_cell4_ok L s F I Fin) |].
    split; [exact Hl |]. split.
    { simpl. unfold columns_after_cell4.
      rewrite get_set_other by discriminate.
      unfold columns_after_cell3. apply get_set_same. }
    split; [apply iforest_labels_sentinels |].
    split; [reflexivity |]. exact (notebook_ok L s F I Fin).
Qed.

(** In a run on [varied_table] the first row is labelled [-1]. *)
Lemma example_scores_first_column (X : matrix) :
  fitted_scores example_externals X = column_of 0 X.
Proof.
  unfold fitted_scores, column_of. simpl. apply map_ext.
  intros [| x r]; reflexivity.
Qed.

Lemma varied_table_first_feature :
  column_of 0 (X_features (header_none varied_table)) = [1; 3].
Proof. reflexivity. Qed.

Lemma varied_table_first_label :
  nth_error (iforest_labels example_externals (X_of varied_table)) 0
  = Some (-1)%Z.
Proof.
  destruct varied_table_input as [I Fin].
  rewrite (X_of_input_table varied_table I Fin).
  unfold iforest_labels. rewrite example_scores_first_column.
  rewrite (X_scaled_column varied_table 0 I Fin) by (simpl; lia).
  rewrite varied_table_first_feature. unfold scaled_column.
  pose proof (scale_of_pos [1; 3]) as P.
  set (m := np_mean [1; 3]). set (sd := scale_of [1; 3]) in *.
  assert ((1 - m) / sd < (3 - m) / sd) as Lt.
  { unfold Rdiv. apply Rmult_lt_compat_r; [now apply Rinv_0_lt_compat | lra]. }
  apply (lowest_score_flagged _ 0 ((1 - m) / sd)).
  - simpl. lia.
  - reflexivity.
  - intros [| [| j]] y Hj Hy; [contradiction | | destruct j; discriminate].
    simpl in Hy. injection Hy as <-. exact Lt.
Qed.

Lemma iforest_sentinels_and_report_witness :
  exists df df_encoded X a b s4 d,
    (run_to_cell4 example_externals varied_table empty_session
     = (inr (df, (df_encoded, X), a, b), s4)
     /\ frames s4 !! df_encoded = Some d
     /\ get_column (LStr "anomaly_iforest") (columns d) = Some (Int64 a)
     /\ Forall (fun lab => lab = (-1)%Z \/ lab = 1%Z) a
     /\ cell_evaluate example_externals df df_encoded s4
        = (inl SyntaxError, s4)
     /\ notebook example_externals varied_table empty_session
        = (inl SyntaxError, s4))
    /\ nth_error a 0 = Some (-1)%Z.
Proof.
  destruct (proj2 (iforest_sentinels_and_report
                     example_externals empty_session varied_table)
              (proj1 varied_table_input) (proj2 varied_table_input))
    as (df & df_encoded & X & a & b & s4 & d & H).
  exists df, df_encoded, X, a, b, s4, d. split; [exact H |].
  destruct H as [E _].
  rewrite (run_to_cell4_ok example_externals empty_session varied_table
             (proj1 varied_table_input) (proj2 varied_table_input)) in E.
  apply (f_equal (fun r : (exn + _) * session example_externals =>
                    match fst r with
                    | inr v => snd (fst v)
                    | inl _ => []
                    end)) in E.
  unfold values_of in E. cbv beta iota in E. cbn [fst snd] in E.
  rewrite <- E. exact varied_table_first_label.
Defined.

(** ** The autoencoder *)

Lemma gt_astype_int_cases (e t : R) :
  (e > t /\ gt_astype_int e t = 1%Z) \/ (~ e > t /\ gt_astype_int e t = 0%Z).
Proof.
  unfold gt_astype_int, Rgt. destruct (Rlt_dec t e); auto.
Qed.

(** C1. For every error array, each row's label is 1 when its error is
    strictly greater than [mean + 3 * std] of that same array and 0
    otherwise; and whenever the Autoencoder Scorer returns, its error array
    is the one computed from the reconstructions, its threshold is
    [mean + 3 * std] of that array and its labels are the ones this rule
    gives for that array. *)
Theorem autoencoder_threshold_rule
  (L : externals) (df_encoded : loc) (X : matrix) (s : session L) :
  (forall mse,
     Forall2
       (fun e lab =>
          (e > np_mean mse + 3 * np_std mse /\ lab = 1%Z)
          \/ (~ e > np_mean mse + 3 * np_std mse /\ lab = 0%Z))
       mse (anomaly_autoencoder mse))
  /\ match fst (cell_autoencoder L df_encoded X s) with
     | inr (mse, labels) =>
         mse = losses_mse X (map (keras_predict L (fst (keras_fit L X (entropy s)))) X)
         /\ threshold mse = np_mean mse + 3 * np_std mse
         /\ labels = anomaly_autoencoder mse
     | inl e =>
         frames s !! df_encoded = None
         \/ exists d, frames s !! df_encoded = Some d /\ index_len d <> length X
     end.
Proof.
  split.
  - intro mse. unfold anomaly_autoencoder, threshold.
    generalize (np_mean mse + 3 * np_std mse). intro t.
    induction mse as [| e mse IH]; simpl; constructor;
      [apply gt_astype_int_cases | exact IH].
  - destruct (frames s !! df_encoded) as [d |] eqn:Hl.
    + destruct (decide (length X = index_len d)) as [E | N].
      * rewrite (cell_autoencoder_run L s df_encoded d X Hl E). simpl.
        repeat split.
      * unfold cell_autoencoder.
        rewrite (bind_run L _ _ _ _ _ (Sequential_fit_run L s X)).
        unfold bind, setitem, bind, get_frame. simpl. rewrite Hl.
        destruct (decide _) as [E | _]; simpl.
        -- exfalso. apply N. simpl in E.
           rewrite anomaly_autoencoder_length in E.
           rewrite losses_mse_length in E by now rewrite length_map.
           exact E.
        -- right. exists d. split; [reflexivity | congruence].
    + unfold cell_autoencoder.
      rewrite (bind_run L _ _ _ _ _ (Sequential_fit_run L s X)).
      unfold bind, setitem, bind, get_frame. simpl. rewrite Hl. simpl.
      now left.
Qed.

(** * Further properties of the notebook's code *)

(** ** Loading and reading columns *)

Lemma header_none_labels F k :
  List.In k (map fst (columns (header_none F)))
  <-> exists j, (j < length (fields F))%nat /\ k = LInt (Z.of_nat j).
Proof.
  simpl. rewrite label_from_labels, in_map_iff. split.
  - intros [j [E I]]. apply in_seq in I. exists j. split; [lia | now symmetry].
  - intros [j [Hj ->]]. exists j. split; [reflexivity |]. apply in_seq. lia.
Qed.

Lemma get_column_header_none F k :
  get_column k (columns (header_none F))
  = match k with
    | LInt z =>
        if (z <? 0)%Z then None else nth_error (fields F) (Z.to_nat z)
    | LStr _ => None
    end.
Proof.
  destruct k as [z | str].
  - destruct (Z.ltb_spec z 0) as [Hz | Hz].
    + apply get_column_None. rewrite header_none_labels.
      intros [j [_ E]]. injection E as E. lia.
    + destruct (nth_error (fields F) (Z.to_nat z)) as [c |] eqn:E.
      * rewrite <- (Z2Nat.id z Hz) at 1.
        apply (get_column_label_from (fields F) 0 (Z.to_nat z) c E).
      * apply get_column_None. rewrite header_none_labels.
        intros [j [Hj E']]. injection E' as E'. subst z.
        rewrite Nat2Z.id in E. apply nth_error_None in E. lia.
  - apply get_column_None. rewrite header_none_labels.
    intros [j [_ E]]. discriminate.
Qed.

(** [pd.read_csv(..., header=None)] followed by [df[k]]: the column at
    position [k] of the file for an integer [k] within the width of the
    table, [KeyError] for every other label. *)
Theorem read_csv_then_getitem
  (L : externals) (s : session L) (F : raw_table) (k : label) :
  fst (bind (read_csv L F) (fun df => getitem L df k) s)
  = match k with
    | LInt z =>
        if (z <? 0)%Z then inl KeyError
        else match nth_error (fields F) (Z.to_nat z) with
             | Some c => inr c
             | None => inl KeyError
             end
    | LStr _ => inl KeyError
    end.
Proof.
  rewrite (bind_run L _ _ s (df_loc s) (loaded s F)) by reflexivity.
  assert (frames (loaded s F) !! df_loc s = Some (header_none F)) as Hdf
    by (simpl; apply lookup_insert_eq).
  pose proof (get_column_header_none F k) as G.
  destruct (get_column k (columns (header_none F))) as [c |] eqn:E.
  - rewrite (getitem_run L _ _ _ _ _ Hdf E). simpl.
    destruct k as [z | str]; [| discriminate].
    destruct (z <? 0)%Z; [discriminate |]. now rewrite <- G.
  - unfold getitem, bind, get_frame. rewrite Hdf, E. simpl.
    destruct k as [z | str]; [| reflexivity].
    destruct (z <? 0)%Z; [reflexivity |]. now rewrite <- G.
Qed.

(** ** Assigning and dropping columns *)

Lemma set_column_absent k v cs :
  ~ List.In k (map fst cs) -> set_column k v cs = cs ++ [(k, v)].
Proof.
  induction cs as [| [k' c] cs IH]; simpl; intro NI; [reflexivity |].
  rewrite decide_False by (intro E; apply NI; now left).
  f_equal. apply IH. tauto.
Qed.

Lemma set_column_twice k v v' cs :
  set_column k v (set_column k v' cs) = set_column k v cs.
Proof.
  induction cs as [| [k' c] cs IH]; simpl.
  - now rewrite decide_True.
  - destruct (decide (k = k')) as [-> | N]; simpl.
    + now rewrite decide_True.
    + rewrite decide_False by exact N. now rewrite IH.
Qed.

Lemma get_drop_same k cs : get_column k (drop_column k cs) = None.
Proof.
  apply get_column_None. intro I. apply in_map_iff in I.
  destruct I as [[k' c] [E I]]. simpl in E. subst k'.
  apply filter_In in I. destruct I as [_ I]. simpl in I.
  now rewrite bool_decide_true in I.
Qed.

Lemma get_drop_other k k' cs :
  k <> k' -> get_column k (drop_column k' cs) = get_column k cs.
Proof.
  intro N. induction cs as [| [k0 c0] cs IH]; simpl; [reflexivity |].
  destruct (decide (k0 = k')) as [-> | N0].
  - rewrite bool_decide_true by reflexivity. simpl.
    rewrite decide_False by exact N. exact IH.
  - rewrite bool_decide_false by exact N0. simpl.
    destruct (decide (k = k0)); [reflexivity | exact IH].
Qed.

(** [df[k] = v] for an array [v], as cells 2, 3 and 4 write it: on a name
    bound to no frame it raises [NameError], on an array whose length
    differs from the index it raises [ValueError], and in both cases the
    session is untouched; otherwise the next [df[k]] returns [v], every
    other column reads as before, and no other frame changes. *)
Theorem setitem_behaviour
  (L : externals) (s : session L) (l : loc) (k : label) (v : Series) :
  match frames s !! l with
  | None => setitem L l k v s = (inl NameError, s)
  | Some d =>
      if decide (Series_len v = index_len d) then
        fst (setitem L l k v s) = inr tt
        /\ fst (getitem L l k (snd (setitem L l k v s))) = inr v
        /\ (forall k', k' <> k ->
              fst (getitem L l k' (snd (setitem L l k v s)))
              = fst (getitem L l k' s))
        /\ (forall l', l' <> l ->
              frames (snd (setitem L l k v s)) !! l' = frames s !! l')
      else setitem L l k v s = (inl ValueError, s)
  end.
Proof.
  destruct (frames s !! l) as [d |] eqn:Hl.
  - destruct (decide (Series_len v = index_len d)) as [E | N].
    + rewrite (setitem_run L s l d k v Hl E). simpl.
      split; [reflexivity |]. split; [| split].
      * erewrite getitem_run; [reflexivity | apply lookup_insert_eq |].
        apply get_set_same.
      * intros k' Nk. unfold getitem, bind, get_frame. simpl.
        rewrite lookup_insert_eq, Hl. simpl.
        rewrite get_set_other by exact Nk.
        now destruct (get_column k' (columns d)).
      * intros l' Nl. now apply lookup_insert_ne.
    + unfold setitem, bind, get_frame. rewrite Hl.
      now rewrite decide_False by exact N.
  - unfold setitem, bind, get_frame. now rewrite Hl.
Qed.

Lemma setitem_behaviour_witness :
  let s := loaded empty_session narrow_table in
  let l := df_loc empty_session in
  (fst (setitem example_externals l (LStr "x") (Int64 [5%Z]) s) = inr tt
   /\ fst (getitem example_externals l (LStr "x")
             (snd (setitem example_externals l (LStr "x") (Int64 [5%Z]) s)))
      = inr (Int64 [5%Z]))
  /\ setitem example_externals l (LStr "x") (Int64 [1%Z; 2%Z]) s
     = (inl ValueError, s)
  /\ setitem example_externals 0%nat (LInt 0) (Int64 [1%Z]) empty_session
     = (inl NameError, empty_session).
Proof.
  intros s l.
  assert (frames s !! l = Some (header_none narrow_table)) as Hl
    by (simpl; apply lookup_insert_eq).
  pose proof (setitem_behaviour example_externals s l (LStr "x") (Int64 [5%Z]))
    as H1.
  pose proof (setitem_behaviour example_externals s l (LStr "x")
                (Int64 [1%Z; 2%Z])) as H2.
  pose proof (setitem_behaviour example_externals empty_session 0%nat (LInt 0)
                (Int64 [1%Z])) as H3.
  rewrite Hl in H1, H2. simpl in H1, H2, H3.
  split; [split; apply H1 |]. split; [exact H2 | exact H3].
Defined.

(** [df.drop(columns=[k])] leaves the session as it is and, when the label
    exists, returns a frame with the same index in which [k] is gone and
    every other column reads as before; without the label it raises
    [KeyError]. *)
Theorem drop_behaviour
  (L : externals) (s : session L) (l : loc) (d : DataFrame) (k : label) :
  frames s !! l = Some d ->
  snd (DataFrame_drop L l k s) = s
  /\ match fst (DataFrame_drop L l k s) with
     | inr d' =>
         get_column k (columns d) <> None
         /\ index_len d' = index_len d
         /\ get_column k (columns d') = None
         /\ forall k', k' <> k ->
              get_column k' (columns d') = get_column k' (columns d)
     | inl e => e = KeyError /\ get_column k (columns d) = None
     end.
Proof.
  intro Hl. unfold DataFrame_drop, bind, get_frame. rewrite Hl.
  destruct (get_column k (columns d)) as [c |] eqn:G; simpl.
  - split; [reflexivity |]. split; [discriminate |]. split; [reflexivity |].
    split; [apply get_drop_same |]. intros k' N. now apply get_drop_other.
  - auto.
Qed.

Lemma drop_behaviour_witness :
  snd (DataFrame_drop example_externals (df_loc empty_session) (LInt 41)
         (loaded empty_session narrow_table))
  = loaded empty_session narrow_table.
Proof.
  apply (drop_behaviour example_externals (loaded empty_session narrow_table)
           (df_loc empty_session) (header_none narrow_table) (LInt 41)).
  simpl. apply lookup_insert_eq.
Defined.

(** ** The working copy after cell 2, and runs that stop early *)

Lemma run_to_cell2_session (L : externals) (s : session L) (F : raw_table) :
  rectangular F -> snd (run_to_cell2 L F s) = encoded s F.
Proof.
  intro R. destruct (Nat.ltb_spec (length (fields F)) 42) as [Hp | Hp].
  - now rewrite run_to_cell2_narrow.
  - now rewrite run_to_cell2_run.
Qed.

Lemma encode_columns_pointwise cs :
  Forall2 (fun kc kc' =>
             fst kc' = fst kc
             /\ Series_len (snd kc') = Series_len (snd kc)
             /\ is_object (snd kc') = false
             /\ (is_object (snd kc) = false -> kc' = kc))
          cs (encode_columns cs).
Proof.
  induction cs as [| [k c] cs IH]; simpl; constructor; [| exact IH].
  unfold encode_column. simpl. destruct (is_object c) eqn:O.
  - repeat split; [apply LabelEncoder_length | apply LabelEncoder_numeric |].
    discriminate.
  - repeat split. exact O.
Qed.

(** After cell 2, whether it returned or raised, the working copy of a
    table as [read_csv] parses it (integer cells within 64 bits) holds one
    column per column of the loaded table, under the same label and of the
    same length: a numeric column is the loaded one, a column of strings has
    become a numeric column. *)
Theorem working_copy_after_cell2
  (L : externals) (s : session L) (F : raw_table) :
  rectangular F ->
  Forall parsed_column (fields F) ->
  exists d,
    frames (snd (run_to_cell2 L F s)) !! df_encoded_loc s F = Some d
    /\ index_len d = n_rows F
    /\ Forall2 (fun kc kc' =>
                  fst kc' = fst kc
                  /\ Series_len (snd kc') = Series_len (snd kc)
                  /\ is_object (snd kc') = false
                  /\ (is_object (snd kc) = false -> kc' = kc))
               (columns (header_none F)) (columns d).
Proof.
  intros R _. exists (encoded_frame (header_none F)).
  rewrite (run_to_cell2_session L s F R). split; [| split].
  - simpl. apply lookup_insert_eq.
  - reflexivity.
  - apply encode_columns_pointwise.
Qed.

Lemma working_copy_after_cell2_witness :
  exists d,
    frames (snd (run_to_cell2 example_externals narrow_table empty_session))
      !! df_encoded_loc empty_session narrow_table = Some d
    /\ index_len d = 1%nat
    /\ Forall2 (fun kc kc' =>
                  fst kc' = fst kc
                  /\ Series_len (snd kc') = Series_len (snd kc)
                  /\ is_object (snd kc') = false
                  /\ (is_object (snd kc) = false -> kc' = kc))
               (columns (header_none narrow_table)) (columns d).
Proof.
  apply (working_copy_after_cell2 example_externals empty_session narrow_table).
  - exact narrow_table_rectangular.
  - unfold narrow_table. table_facts.
Defined.

(** On a table with fewer than 42 columns the run stops in cell 2 with
    [KeyError]: no scorer runs, the loaded frame is intact and the working
    copy, already encoded, has none of the result columns. *)
Theorem notebook_without_column_41
  (L : externals) (s : session L) (F : raw_table) :
  rectangular F ->
  (length (fields F) < 42)%nat ->
  fst (notebook L F s) = inl KeyError
  /\ entropy (snd (notebook L F s)) = entropy s
  /\ frames (snd (notebook L F s)) !! df_loc s = Some (header_none F)
  /\ exists d,
       frames (snd (notebook L F s)) !! df_encoded_loc s F = Some d
       /\ get_column (LStr "anomaly_iforest") (columns d) = None
       /\ get_column (LStr "anomaly_autoencoder") (columns d) = None
       /\ get_column (LStr "true_label") (columns d) = None.
Proof.
  intros R Hp.
  assert (notebook L F s = (inl KeyError, encoded s F)) as E.
  { unfold notebook, run_to_cell4, run_to_cell3.
    now rewrite (bind_fail L _ _ _ _ _
                   (bind_fail L _ _ _ _ _
                      (bind_fail L _ _ _ _ _ (run_to_cell2_narrow L s F R Hp)))). }
  rewrite E. split; [reflexivity |]. split; [reflexivity |]. split.
  - simpl. rewrite lookup_insert_ne by (apply not_eq_sym, df_encoded_loc_ne).
    apply lookup_insert_eq.
  - exists (encoded_frame (header_none F)).
    split; [simpl; apply lookup_insert_eq |].
    repeat split; apply encoded_has_no_result_column.
Qed.

Lemma notebook_without_column_41_witness :
  fst (notebook example_externals narrow_table empty_session) = inl KeyError.
Proof.
  apply (notebook_without_column_41 example_externals empty_session narrow_table).
  - exact narrow_table_rectangular.
  - simpl. lia.
Defined.

(** Every exception of the scaler is a [ValueError], and the scaler returns
    only on frames without infinite cells. *)
Lemma columns_to_float_inl cs e : columns_to_float cs = inl e -> e = ValueError.
Proof.
  induction cs as [| [k c] cs IH]; simpl; [discriminate |].
  destruct c as [v | v | v]; simpl.
  - destruct (columns_to_float cs); [| discriminate].
    intro H. injection H as <-. now apply IH.
  - destruct (finite_values v); [| intro H; now injection H].
    destruct (columns_to_float cs); [| discriminate].
    intro H. injection H as <-. now apply IH.
  - intro H. now injection H.
Qed.

Lemma fit_transform_inl d e :
  StandardScaler_fit_transform d = inl e -> e = ValueError.
Proof.
  unfold StandardScaler_fit_transform, to_numpy.
  destruct (columns_to_float (columns d)) as [e' | vs] eqn:E.
  - intro H. injection H as <-. now apply (columns_to_float_inl _ _ E).
  - unfold check_array. destruct (shape _) as [[| n] [| p]]; try discriminate;
      intro H; now injection H.
Qed.

Lemma finite_values_finite v xs : finite_values v = Some xs -> Forall is_finite v.
Proof.
  revert xs. induction v as [| x v IH]; simpl; intros xs E; [constructor |].
  destruct x as [x | b]; [| discriminate].
  destruct (finite_values v) as [ys |] eqn:Ev; [| discriminate].
  constructor; [exact Logic.I | now apply (IH ys)].
Qed.

Lemma columns_to_float_inr cs vs :
  columns_to_float cs = inr vs -> Forall (fun kc => finite_column (snd kc)) cs.
Proof.
  revert vs. induction cs as [| [k c] cs IH]; simpl; intros vs E;
    [constructor |].
  destruct (Series_to_float c) as [e | x] eqn:Ec; [discriminate |].
  destruct (columns_to_float cs) as [e | vs'] eqn:Ecs; [discriminate |].
  constructor; [| now apply (IH vs')].
  destruct c as [v | v | v]; simpl in *; try exact Logic.I.
  destruct (finite_values v) as [xs |] eqn:Ev; [| discriminate].
  now apply (finite_values_finite v xs).
Qed.

Lemma infinite_feature_refused F j v :
  j <> 41%nat ->
  nth_error (fields F) j = Some (Float64 v) ->
  ~ Forall is_finite v ->
  StandardScaler_fit_transform (features_of (header_none F)) = inl ValueError.
Proof.
  intros Nj Hj Hv.
  destruct (StandardScaler_fit_transform (features_of (header_none F)))
    as [e | X] eqn:E.
  - now rewrite (fit_transform_inl _ _ E).
  - exfalso. apply Hv.
    unfold StandardScaler_fit_transform, to_numpy in E.
    destruct (columns_to_float (columns (features_of (header_none F))))
      as [e | vs] eqn:Ec; [discriminate |].
    pose proof (columns_to_float_inr _ _ Ec) as Fin.
    rewrite List.Forall_forall in Fin.
    apply (Fin (LInt (Z.of_nat j), Float64 v)).
    unfold features_of. simpl. apply filter_In. split.
    + apply (in_map encode_column _ (LInt (Z.of_nat j), Float64 v)).
      apply get_column_In.
      apply (get_column_label_from (fields F) 0 j _ Hj).
    + simpl. rewrite bool_decide_false; [reflexivity |].
      intro H. injection H as H. lia.
Qed.

(** On a table with the field [inf] or [-inf] in a feature column the run
    stops in cell 2 with the [ValueError] of the scaler: no scorer runs, the
    loaded frame is intact and the working copy, already encoded, has none
    of the result columns. *)
Theorem notebook_with_infinite_field
  (L : externals) (s : session L) (F : raw_table) (j : nat) (v : list float64) :
  rectangular F ->
  (42 <= length (fields F))%nat ->
  j <> 41%nat ->
  nth_error (fields F) j = Some (Float64 v) ->
  ~ Forall is_finite v ->
  fst (notebook L F s) = inl ValueError
  /\ entropy (snd (notebook L F s)) = entropy s
  /\ frames (snd (notebook L F s)) !! df_loc s = Some (header_none F)
  /\ exists d,
       frames (snd (notebook L F s)) !! df_encoded_loc s F = Some d
       /\ get_column (LStr "anomaly_iforest") (columns d) = None
       /\ get_column (LStr "anomaly_autoencoder") (columns d) = None.
Proof.
  intros R Hp Nj Hj Hv.
  assert (notebook L F s = (inl ValueError, encoded s F)) as E.
  { pose proof (run_to_cell2_run L s F R Hp) as E2.
    rewrite (infinite_feature_refused F j v Nj Hj Hv) in E2.
    unfold notebook, run_to_cell4, run_to_cell3.
    now rewrite (bind_fail L _ _ _ _ _
                   (bind_fail L _ _ _ _ _ (bind_fail L _ _ _ _ _ E2))). }
  rewrite E. split; [reflexivity |]. split; [reflexivity |]. split.
  - simpl. rewrite lookup_insert_ne by (apply not_eq_sym, df_encoded_loc_ne).
    apply lookup_insert_eq.
  - exists (encoded_frame (header_none F)).
    split; [simpl; apply lookup_insert_eq |].
    split; apply encoded_has_no_result_column.
Qed.

Lemma notebook_with_infinite_field_witness :
  fst (notebook example_externals infinite_table empty_session) = inl ValueError.
Proof.
  apply (notebook_with_infinite_field example_externals empty_session
           infinite_table 40 [finite 1; infinity false]).
  - exact (proj1 infinite_table_input).
  - simpl. lia.
  - lia.
  - reflexivity.
  - intro H. inversion H as [| ? ? _ H2]. inversion H2 as [| ? ? H3 _].
    exact H3.
Defined.

(** ** A run on an input table *)

(** On an input table without infinite fields cells 1 to 4 return and cell 5
    stops the run with [SyntaxError].  The scaled array, both label arrays
    and the error array have one entry per row; the working copy ends as the
    encoded columns followed by ['anomaly_iforest'] and
    ['anomaly_autoencoder'], in this order; the random source is the one
    left by fitting the network. *)
Theorem notebook_stops_in_cell5 (L : externals) (s : session L) (F : raw_table) :
  input_table F ->
  finite_fields F ->
  exists df df_encoded X a mse b s',
    run_to_cell4 L F s = (inr (df, (df_encoded, X), a, (mse, b)), s')
    /\ notebook L F s = (inl SyntaxError, s')
    /\ length X = n_rows F
    /\ length a = n_rows F
    /\ length mse = n_rows F
    /\ length b = n_rows F
    /\ entropy s' = snd (keras_fit L X (entropy s))
    /\ frames s' !! df_encoded
       = Some (mkDataFrame (n_rows F)
                 (encode_columns (columns (header_none F))
                  ++ [(LStr "anomaly_iforest", Int64 a);
                      (LStr "anomaly_autoencoder", Int64 b)])).
Proof.
  intros I Fin.
  exists (df_loc s), (df_encoded_loc s F), (X_of F),
    (iforest_labels L (X_of F)), (mse_of L (X_of F) (entropy s)),
    (anomaly_autoencoder (mse_of L (X_of F) (entropy s))),
    (session_after_cell4 s F).
  destruct (X_of_checked F _ (input_table_scaled F I Fin)) as [_ HX].
  split; [exact (run_to_cell4_ok L s F I Fin) |].
  split; [exact (notebook_ok L s F I Fin) |].
  split; [exact HX |]. split; [now rewrite iforest_labels_length |].
  split; [now rewrite mse_of_length |].
  split; [now rewrite anomaly_autoencoder_length, mse_of_length |].
  split; [reflexivity |]. simpl.
  rewrite lookup_insert_eq. do 2 f_equal.
  unfold columns_after_cell4, columns_after_cell3.
  set (cs := encode_columns (columns (header_none F))).
  assert (forall name, ~ List.In (LStr name) (map fst cs)) as NI.
  { intros name. apply get_column_None, encoded_has_no_result_column. }
  rewrite (set_column_absent (LStr "anomaly_iforest") _ cs) by apply NI.
  rewrite (set_column_absent (LStr "anomaly_autoencoder")).
  2:{ rewrite map_app, in_app_iff. simpl. intros [J | [E | []]];
        [now apply (NI "anomaly_autoencoder"%string) | discriminate]. }
  now rewrite <- !app_assoc.
Qed.

Lemma notebook_stops_in_cell5_witness :
  exists df df_encoded X a mse b s',
    run_to_cell4 example_externals wide_table empty_session
    = (inr (df, (df_encoded, X), a, (mse, b)), s')
    /\ notebook example_externals wide_table empty_session
       = (inl SyntaxError, s')
    /\ length X = 2%nat
    /\ length a = 2%nat
    /\ length mse = 2%nat
    /\ length b = 2%nat
    /\ entropy s' = tt
    /\ frames s' !! df_encoded
       = Some (mkDataFrame 2
                 (encode_columns (columns (header_none wide_table))
                  ++ [(LStr "anomaly_iforest", Int64 a);
                      (LStr "anomaly_autoencoder", Int64 b)])).
Proof.
  apply (notebook_stops_in_cell5 example_externals empty_session wide_table).
  - exact (proj1 wide_table_input).
  - exact (proj2 wide_table_input).
Defined.

(** ** The extremes of the isolation-forest scores *)

Lemma pointwise_on_map {X Y : Type} (rel : X -> Y -> Prop) (g : X -> Y)
      (xs : list X) :
  Forall (fun x => rel x (g x)) xs -> Forall2 rel xs (map g xs).
Proof.
  induction 1 as [| x xs Hx _ IH]; simpl; constructor; assumption.
Qed.

Lemma anomalous_fewer_than_rows (a : list R) :
  a <> [] ->
  (count_anomalous (predict_from_scores (5 / 100) a) < length a)%nat.
Proof.
  intro N. destruct a as [| x [| y a]]; [contradiction | |].
  - rewrite (count_anomalous_ties [x] x); [simpl; lia | discriminate |].
    now constructor.
  - pose proof (count_anomalous_upper (x :: y :: a) N) as U.
    pose proof (Nat.div_mod_eq (length (x :: y :: a) - 1) 20) as E.
    simpl length in *. lia.
Qed.

(** On a matrix with at least one row and one column the scorer labels
    [+1] every row whose score no other row exceeds; so it never labels all
    rows anomalous. *)
Theorem iforest_top_score_is_normal
  (L : externals) (X : matrix) (s : session L) :
  check_array X = inr X ->
  exists labels,
    IsolationForest_fit_predict L iso_forest X s = (inr labels, s)
    /\ Forall2 (fun sc lab =>
                  (forall y, List.In y (fitted_scores L X) -> y <= sc) ->
                  lab = 1%Z)
               (fitted_scores L X) labels
    /\ (count_anomalous labels < length X)%nat.
Proof.
  intro HX. exists (iforest_labels L X).
  rewrite IsolationForest_fit_predict_run, HX.
  assert (fitted_scores L X <> []) as N.
  { unfold fitted_scores. destruct X; [discriminate HX | discriminate]. }
  split; [reflexivity |]. unfold iforest_labels. split.
  - rewrite predict_from_scores_map. apply pointwise_on_map.
    apply List.Forall_forall. intros sc I Hmax.
    destruct (percentile_between _ N) as [_ [Hh [_ [_ Hp]]]].
    assert (nth (Nat.min ((length (fitted_scores L X) - 1) / 20 + 1)
                         (length (fitted_scores L X) - 1))
                (np_sort (fitted_scores L X)) 0 <= sc) as Hle.
    { apply Hmax. apply (Permutation_in _ (np_sort_perm _)).
      apply nth_In. now rewrite np_sort_length. }
    destruct (is_inlier_cases (sc - np_percentile (fitted_scores L X)
                                         (100 * (5 / 100))))
      as [[H _] | [_ E]]; [lra | exact E].
  - rewrite <- (length_map (forest_score L
                              (grow_forest L (RandomState_seed L 42) X)) X).
    now apply anomalous_fewer_than_rows.
Qed.

Lemma iforest_top_score_is_normal_witness :
  exists labels,
    IsolationForest_fit_predict example_externals iso_forest three_rows
      empty_session = (inr labels, empty_session)
    /\ Forall2 (fun sc lab =>
                  (forall y,
                     List.In y (fitted_scores example_externals three_rows) ->
                     y <= sc) ->
                  lab = 1%Z)
               (fitted_scores example_externals three_rows) labels
    /\ (count_anomalous labels < 3)%nat.
Proof.
  apply (iforest_top_score_is_normal example_externals three_rows empty_session).
  reflexivity.
Defined.

(** With at least two rows, a row whose score is strictly below the score
    of every other row is labelled [-1]. *)
Theorem iforest_lowest_score_is_anomalous
  (L : externals) (X : matrix) (s : session L) (i : nat) (sc : R) :
  check_array X = inr X ->
  (2 <= length X)%nat ->
  nth_error (fitted_scores L X) i = Some sc ->
  (forall j y, j <> i -> nth_error (fitted_scores L X) j = Some y -> sc < y) ->
  exists labels,
    IsolationForest_fit_predict L iso_forest X s = (inr labels, s)
    /\ nth_error labels i = Some (-1)%Z.
Proof.
  intros HX Hn Hi Hmin. exists (iforest_labels L X).
  rewrite IsolationForest_fit_predict_run, HX. split; [reflexivity |].
  unfold iforest_labels. rewrite predict_from_scores_map.
  rewrite nth_error_map, Hi. simpl. f_equal.
  assert (sc < np_percentile (fitted_scores L X) (100 * (5 / 100))) as Hp.
  { apply (percentile_above_unique_minimum _ i); [| exact Hi | exact Hmin].
    unfold fitted_scores. now rewrite length_map. }
  destruct (is_inlier_cases (sc - np_percentile (fitted_scores L X)
                                       (100 * (5 / 100))))
    as [[_ E] | [H _]]; [exact E | lra].
Qed.

Lemma iforest_lowest_score_is_anomalous_witness :
  exists labels,
    IsolationForest_fit_predict example_externals iso_forest three_rows
      empty_session = (inr labels, empty_session)
    /\ nth_error labels 0 = Some (-1)%Z.
Proof.
  apply (iforest_lowest_score_is_anomalous
           example_externals three_rows empty_session 0 1).
  - reflexivity.
  - simpl. lia.
  - reflexivity.
  - intros j y Hj Hy. rewrite three_rows_scores in Hy.
    destruct j as [| [| [| j]]]; [contradiction | | |].
    + injection Hy as <-. lra.
    + injection Hy as <-. lra.
    + destruct j; discriminate.
Defined.

(** ** Running the isolation-forest cell again *)

(** Cell 3 run twice in a row leaves the session exactly as one run does:
    the second assignment replaces the column ['anomaly_iforest'] in place
    with the same labels. *)
Theorem cell_iforest_rerun
  (L : externals) (s : session L) (l : loc) (d : DataFrame) (X : matrix) :
  frames s !! l = Some d ->
  check_array X = inr X ->
  length X = index_len d ->
  bind (cell_iforest L l X) (fun _ => cell_iforest L l X) s
  = cell_iforest L l X s.
Proof.
  intros Hl HX Hn.
  rewrite (bind_run L _ _ _ _ _ (cell_iforest_run L s l d X Hl HX Hn)).
  rewrite (cell_iforest_run L s l d X Hl HX Hn).
  erewrite cell_iforest_run;
    [| simpl; apply lookup_insert_eq | exact HX | exact Hn].
  simpl. now rewrite insert_insert_eq, set_column_twice.
Qed.

Lemma cell_iforest_rerun_witness :
  bind (cell_iforest example_externals (df_loc empty_session)
          [[0]]) (fun _ => cell_iforest example_externals
                             (df_loc empty_session) [[0]])
       (loaded empty_session narrow_table)
  = cell_iforest example_externals (df_loc empty_session) [[0]]
      (loaded empty_session narrow_table).
Proof.
  apply (cell_iforest_rerun example_externals
           (loaded empty_session narrow_table) (df_loc empty_session)
           (header_none narrow_table) [[0]]).
  - simpl. apply lookup_insert_eq.
  - reflexivity.
  - reflexivity.
Defined.

(** ** Counting the labels *)

Lemma value_counts_lookup (v : list Z) (x : Z) :
  value_counts v !! x
  = match count_occ Z.eq_dec v x with
    | O => None
    | S n => Some (S n)
    end.
Proof.
  induction v as [| y v IH]; [reflexivity |].
  cbn [value_counts fold_right]. fold (value_counts v).
  destruct (Z.eq_dec y x) as [-> | N].
  - rewrite lookup_insert_eq, count_occ_cons_eq by reflexivity.
    rewrite IH. now destruct (count_occ Z.eq_dec v x).
  - rewrite lookup_insert_ne by exact N.
    now rewrite count_occ_cons_neq by exact N.
Qed.

(** [value_counts()] lists a value exactly when it occurs in the column,
    with its number of occurrences; the counts add up to the number of
    rows. *)
Theorem value_counts_counts (v : list Z) :
  (forall x n, value_counts v !! x = Some n
               <-> n = count_occ Z.eq_dec v x /\ List.In x v)
  /\ map_fold (fun _ n acc => (n + acc)%nat) 0%nat (value_counts v) = length v.
Proof.
  split.
  - intros x n. rewrite value_counts_lookup.
    rewrite (count_occ_In Z.eq_dec v x).
    destruct (count_occ Z.eq_dec v x) as [| c]; split.
    + discriminate.
    + intros [_ H]. lia.
    + intro E. injection E as <-. split; [reflexivity | lia].
    + intros [-> _]. reflexivity.
  - induction v as [| y v IH]; [reflexivity |].
    cbn [value_counts fold_right]. fold (value_counts v).
    destruct (value_counts v !! y) as [c |] eqn:E.
    + rewrite <- (insert_delete_id (value_counts v) y c E) in IH.
      rewrite map_fold_insert_L in IH;
        [| intros; lia | apply lookup_delete_eq].
      rewrite <- (insert_delete_eq (value_counts v)).
      rewrite map_fold_insert_L; [| intros; lia | apply lookup_delete_eq].
      simpl. simpl in IH. lia.
    + rewrite map_fold_insert_L; [| intros; lia | exact E].
      simpl. now rewrite IH.
Qed.

Lemma value_counts_counts_witness :
  value_counts [1; -1; 1]%Z !! 1%Z = Some 2%nat.
Proof.
  apply (proj1 (value_counts_counts [1; -1; 1]%Z)). split.
  - reflexivity.
  - now left.
Defined.

Lemma count_sentinels (c : R) (scores : list R) :
  (count_occ Z.eq_dec (predict_from_scores c scores) (-1)%Z
   + count_occ Z.eq_dec (predict_from_scores c scores) 1%Z)%nat
  = length scores
  /\ forall z, z <> (-1)%Z -> z <> 1%Z ->
       count_occ Z.eq_dec (predict_from_scores c scores) z = 0%nat.
Proof.
  rewrite predict_from_scores_map.
  generalize (np_percentile scores (100 * c)). intro p.
  induction scores as [| x a [IH1 IH2]]; [split; reflexivity |].
  cbn [map length].
  destruct (is_inlier_cases (x - p)) as [[_ E] | [_ E]]; rewrite E; split.
  - rewrite count_occ_cons_eq, count_occ_cons_neq by (reflexivity || discriminate).
    simpl. now rewrite IH1.
  - intros z N1 N2. rewrite count_occ_cons_neq by congruence. now apply IH2.
  - rewrite count_occ_cons_neq, count_occ_cons_eq by (reflexivity || discriminate).
    rewrite Nat.add_succ_r. now rewrite IH1.
  - intros z N1 N2. rewrite count_occ_cons_neq by congruence. now apply IH2.
Qed.

(** The counts displayed by cell 3: only [-1] and [+1] can be listed, the
    count of [-1] is the number of anomalous rows, and the two counts add up
    to the number of rows. *)
Theorem iforest_value_counts (c : R) (scores : list R) :
  let counts := value_counts (predict_from_scores c scores) in
  (default 0%nat (counts !! (-1)%Z) + default 0%nat (counts !! 1%Z))%nat
  = length scores
  /\ default 0%nat (counts !! (-1)%Z)
     = count_anomalous (predict_from_scores c scores)
  /\ forall z, z <> (-1)%Z -> z <> 1%Z -> counts !! z = None.
Proof.
  intro counts. unfold counts. destruct (count_sentinels c scores) as [Hs Hz].
  assert (forall z,
            default 0%nat (value_counts (predict_from_scores c scores) !! z)
            = count_occ Z.eq_dec (predict_from_scores c scores) z) as D.
  { intro z. rewrite value_counts_lookup.
    now destruct (count_occ Z.eq_dec (predict_from_scores c scores) z). }
  split; [now rewrite !D |]. split; [now rewrite D |].
  intros z N1 N2. rewrite value_counts_lookup. now rewrite (Hz z N1 N2).
Qed.

Lemma iforest_value_counts_witness :
  let counts := value_counts (predict_from_scores (5 / 100) [1; 2; 3]) in
  (default 0%nat (counts !! (-1)%Z) + default 0%nat (counts !! 1%Z))%nat
  = 3%nat
  /\ default 0%nat (counts !! (-1)%Z)
     = count_anomalous (predict_from_scores (5 / 100) [1; 2; 3])
  /\ forall z, z <> (-1)%Z -> z <> 1%Z -> counts !! z = None.
Proof. exact (iforest_value_counts (5 / 100) [1; 2; 3]). Defined.

(** ** The figures of the reports *)

Lemma count_where_le_length f pairs : (count_where f pairs <= length pairs)%nat.
Proof.
  unfold count_where. induction pairs as [| p l IH]; simpl; [lia |].
  destruct (f p); simpl; lia.
Qed.

Lemma count_where_mono (f g : Z * Z -> bool) pairs :
  (forall p, f p = true -> g p = true) ->
  (count_where f pairs <= count_where g pairs)%nat.
Proof.
  intro H. unfold count_where. induction pairs as [| p l IH]; simpl; [lia |].
  destruct (f p) eqn:Ef.
  - rewrite (H p Ef). simpl. lia.
  - destruct (g p); simpl; lia.
Qed.

Lemma Zpos_of_nat_succ (n : nat) : Z.pos (Pos.of_nat (S n)) = Z.of_nat (S n).
Proof. rewrite <- Pos.of_nat_succ. now rewrite Zpos_P_of_succ_nat, Nat2Z.inj_succ. Qed.

Lemma ratio_bounds (a b : nat) :
  (a <= b)%nat -> (0 <= ratio a b)%Q /\ (ratio a b <= 1)%Q.
Proof.
  intro H. unfold ratio. destruct b as [| b].
  - split; unfold Qle; simpl; lia.
  - split; unfold Qle; cbn [Qnum Qden]; rewrite Zpos_of_nat_succ; lia.
Qed.

Lemma metrics_of_class_bounds pairs c :
  let m := metrics_of_class pairs c in
  (0 <= precision m)%Q /\ (precision m <= 1)%Q
  /\ (0 <= recall m)%Q /\ (recall m <= 1)%Q
  /\ (0 <= f1_score m)%Q /\ (f1_score m <= 1)%Q
  /\ (support m <= length pairs)%nat.
Proof.
  unfold metrics_of_class. cbn [precision recall f1_score support].
  set (tp := count_where _ pairs).
  set (predicted := count_where (fun tp => Z.eqb (snd tp) c) pairs).
  set (actual := count_where (fun tp => Z.eqb (fst tp) c) pairs).
  assert (tp <= predicted)%nat as H1.
  { apply count_where_mono. intros p Hp.
    apply andb_true_iff in Hp. tauto. }
  assert (tp <= actual)%nat as H2.
  { apply count_where_mono. intros p Hp.
    apply andb_true_iff in Hp. tauto. }
  destruct (ratio_bounds tp predicted H1) as [A1 A2].
  destruct (ratio_bounds tp actual H2) as [B1 B2].
  destruct (ratio_bounds (2 * tp) (predicted + actual) ltac:(lia)) as [C1 C2].
  repeat split; try assumption. apply count_where_le_length.
Qed.

(** On a non-empty ground truth [classification_report] raises
    [ValueError] exactly when its two arguments differ in length; otherwise,
    for every class listed, precision, recall and F1 lie between 0 and 1
    and the support is at most the number of rows. *)
Theorem classification_report_bounds (y_true y_pred : list Z) :
  y_true <> [] ->
  match classification_report y_true y_pred with
  | inl e => e = ValueError /\ length y_true <> length y_pred
  | inr report =>
      length y_true = length y_pred
      /\ Forall (fun m =>
                   (0 <= precision m)%Q /\ (precision m <= 1)%Q
                   /\ (0 <= recall m)%Q /\ (recall m <= 1)%Q
                   /\ (0 <= f1_score m)%Q /\ (f1_score m <= 1)%Q
                   /\ (support m <= length y_true)%nat)
                report
  end.
Proof.
  intros N0.
  destruct (Nat.eq_dec (length y_true) (length y_pred)) as [E | N].
  - rewrite (classification_report_ok _ _ N0 E). unfold report_of.
    split; [exact E |]. apply List.Forall_map, List.Forall_forall.
    intros c _.
    pose proof (metrics_of_class_bounds (combine y_true y_pred) c) as B.
    cbv zeta in B. rewrite length_combine in B.
    repeat split; try apply B. destruct B as [_ [_ [_ [_ [_ [_ B]]]]]]. lia.
  - unfold classification_report.
    destruct (Nat.eqb_spec (length y_true) (length y_pred));
      [contradiction | auto].
Qed.

Lemma classification_report_bounds_witness :
  classification_report [0; 1]%Z [1]%Z = inl ValueError.
Proof.
  pose proof (classification_report_bounds [0; 1]%Z [1]%Z ltac:(discriminate))
    as H.
  destruct (classification_report [0; 1]%Z [1]%Z) as [e | r].
  - f_equal. apply H.
  - destruct H as [H _]. discriminate H.
Defined.

Lemma In_insert_unique {A} (cmp : A -> A -> comparison) (x z : A) (l : list A) :
  List.In z (insert_unique cmp x l) -> z = x \/ List.In z l.
Proof.
  induction l as [| y l IH]; simpl.
  - intros [E | []]. now left.
  - destruct (cmp x y); simpl.
    + tauto.
    + intros [E | [E | I]]; auto.
    + intros [E | I]; [auto |]. destruct (IH I); auto.
Qed.

Lemma In_np_unique {A} (cmp : A -> A -> comparison) (z : A) (v : list A) :
  List.In z (np_unique cmp v) -> List.In z v.
Proof.
  induction v as [| x v IH]; simpl; [tauto |].
  intro I. apply In_insert_unique in I. destruct I as [-> | I]; auto.
Qed.

Lemma count_where_diagonal (y : list Z) (c : Z) :
  count_where (fun tp => Z.eqb (fst tp) c && Z.eqb (snd tp) c) (combine y y)
  = count_occ Z.eq_dec y c
  /\ count_where (fun tp => Z.eqb (snd tp) c) (combine y y)
     = count_occ Z.eq_dec y c
  /\ count_where (fun tp => Z.eqb (fst tp) c) (combine y y)
     = count_occ Z.eq_dec y c.
Proof.
  unfold count_where. induction y as [| x y [IH1 [IH2 IH3]]];
    [repeat split |].
  cbn [combine List.filter fst snd].
  destruct (Z.eqb_spec x c) as [-> | N].
  - rewrite count_occ_cons_eq by reflexivity. simpl.
    now rewrite IH1, IH2, IH3.
  - rewrite count_occ_cons_neq by exact N. simpl. auto.
Qed.

Lemma ratio_same (a : nat) : (0 < a)%nat -> (ratio a a == 1)%Q.
Proof.
  intro H. unfold ratio. destruct a as [| a]; [lia |].
  unfold Qeq. cbn [Qnum Qden]. rewrite Zpos_of_nat_succ. lia.
Qed.

Lemma ratio_double (a : nat) : (0 < a)%nat -> (ratio (2 * a) (a + a) == 1)%Q.
Proof.
  intro H. replace (2 * a)%nat with (a + a)%nat by lia.
  apply ratio_same. lia.
Qed.

(** When the predictions equal a non-empty ground truth the report lists
    classes that occur, each with precision, recall and F1 equal to 1 and
    with its number of occurrences as support. *)
Theorem classification_report_perfect (y : list Z) :
  y <> [] ->
  exists report,
    classification_report y y = inr report
    /\ Forall (fun m =>
                 List.In (class_label m) y
                 /\ (precision m == 1)%Q
                 /\ (recall m == 1)%Q
                 /\ (f1_score m == 1)%Q
                 /\ support m = count_occ Z.eq_dec y (class_label m))
              report.
Proof.
  intros N0.
  exists (report_of y y). split; [now apply classification_report_ok |].
  unfold report_of. apply List.Forall_map, List.Forall_forall.
  intros c I. apply In_np_unique in I.
  assert (List.In c y) as Iy by (apply in_app_or in I; tauto).
  unfold metrics_of_class. cbn [class_label precision recall f1_score support].
  destruct (count_where_diagonal y c) as [-> [-> ->]].
  assert (0 < count_occ Z.eq_dec y c)%nat as Hc by now apply count_occ_In.
  split; [exact Iy |]. split; [now apply ratio_same |].
  split; [now apply ratio_same |]. split; [now apply ratio_double |].
  reflexivity.
Qed.

Lemma classification_report_perfect_witness :
  exists report,
    classification_report [0; 1; 1]%Z [0; 1; 1]%Z = inr report
    /\ Forall (fun m =>
                 List.In (class_label m) [0; 1; 1]%Z
                 /\ (precision m == 1)%Q
                 /\ (recall m == 1)%Q
                 /\ (f1_score m == 1)%Q
                 /\ support m = count_occ Z.eq_dec [0; 1; 1]%Z (class_label m))
              report.
Proof. apply classification_report_perfect. discriminate. Defined.

(** ** The codes of [LabelEncoder] *)

Section Codes.

Context {A : Type} (cmp : A -> A -> comparison).

Hypothesis cmp_eq : forall x y, cmp x y = Eq -> x = y.
Hypothesis cmp_refl : forall x, cmp x x = Eq.
Hypothesis cmp_antisym : forall x y, cmp x y = CompOpp (cmp y x).
Hypothesis cmp_trans :
  forall x y z, cmp x y = Lt -> cmp y z = Lt -> cmp x z = Lt.

Lemma insert_unique_In (x : A) (l : list A) :
  List.In x (insert_unique cmp x l)
  /\ forall z, List.In z l -> List.In z (insert_unique cmp x l).
Proof.
  induction l as [| y l [IH1 IH2]]; simpl.
  - split; [now left | tauto].
  - destruct (cmp x y) eqn:E.
    + apply cmp_eq in E. subst y. split; [now left | auto].
    + split; [now left |]. intros z I. now right.
    + split; [now right |]. intros z [-> | I]; [now left |].
      right. now apply IH2.
Qed.

Lemma np_unique_In (x : A) (v : list A) :
  List.In x v -> List.In x (np_unique cmp v).
Proof.
  induction v as [| y v IH]; simpl; [tauto |].
  intros [-> | I].
  - apply (proj1 (insert_unique_In _ _)).
  - apply (proj2 (insert_unique_In _ _)). now apply IH.
Qed.

Lemma np_unique_length (v : list A) :
  (length (np_unique cmp v) <= length v)%nat.
Proof.
  induction v as [| x v IH]; simpl; [lia |].
  assert (forall l, length (insert_unique cmp x l) <= S (length l))%nat as H.
  { induction l as [| y l IHl]; simpl; [lia |].
    destruct (cmp x y); simpl; lia. }
  specialize (H (np_unique cmp v)). lia.
Qed.

Lemma searchsorted_nth (x d : A) (l : list A) :
  List.In x l ->
  (searchsorted cmp x l < length l)%nat
  /\ nth (searchsorted cmp x l) l d = x.
Proof.
  induction l as [| y l IH]; simpl; [tauto |].
  intro I. destruct (cmp x y) eqn:E.
  - apply cmp_eq in E. subst y. split; [lia | reflexivity].
  - destruct I as [-> | I]; [rewrite cmp_refl in E; discriminate |].
    destruct (IH I). split; [lia | assumption].
  - destruct I as [-> | I]; [rewrite cmp_refl in E; discriminate |].
    destruct (IH I). split; [lia | assumption].
Qed.

Lemma cmp_Gt_Lt (x y : A) : cmp x y = Gt -> cmp y x = Lt.
Proof.
  intro E. rewrite cmp_antisym in E. now destruct (cmp y x).
Qed.

Lemma insert_unique_sorted (x : A) (l : list A) :
  StronglySorted (fun a b => cmp a b = Lt) l ->
  StronglySorted (fun a b => cmp a b = Lt) (insert_unique cmp x l).
Proof.
  induction 1 as [| y l S IH F]; simpl.
  - constructor; constructor.
  - destruct (cmp x y) eqn:E.
    + now constructor.
    + constructor; [now constructor |]. constructor; [exact E |].
      eapply List.Forall_impl; [| exact F]. intros z Hz.
      now apply (cmp_trans x y z).
    + constructor; [exact IH |]. apply List.Forall_forall. intros z I.
      apply In_insert_unique in I. destruct I as [-> | I].
      * now apply cmp_Gt_Lt.
      * rewrite List.Forall_forall in F. now apply F.
Qed.

Lemma np_unique_sorted (v : list A) :
  StronglySorted (fun a b => cmp a b = Lt) (np_unique cmp v).
Proof.
  induction v as [| x v IH]; simpl; [constructor |].
  now apply insert_unique_sorted.
Qed.

Lemma sorted_NoDup (l : list A) :
  StronglySorted (fun a b => cmp a b = Lt) l -> List.NoDup l.
Proof.
  induction 1 as [| y l S IH F]; constructor; [| exact IH].
  intro I. rewrite List.Forall_forall in F. specialize (F y I).
  rewrite cmp_refl in F. discriminate.
Qed.

Lemma searchsorted_monotone (l : list A) :
  StronglySorted (fun a b => cmp a b = Lt) l ->
  forall x y, List.In x l -> List.In y l -> cmp x y = Lt ->
              (searchsorted cmp x l < searchsorted cmp y l)%nat.
Proof.
  induction 1 as [| z l S IH F]; intros x y Ix Iy Hxy; [contradiction |].
  rewrite List.Forall_forall in F. simpl.
  destruct Ix as [-> | Ix]; destruct Iy as [-> | Iy].
  - rewrite cmp_refl in Hxy. discriminate.
  - rewrite cmp_refl. rewrite (cmp_antisym y x), Hxy. simpl. lia.
  - exfalso. specialize (F x Ix).
    rewrite (cmp_antisym y x), Hxy in F. discriminate.
  - rewrite (cmp_antisym x z), (F x Ix), (cmp_antisym y z), (F y Iy). simpl.
    apply -> Nat.succ_lt_mono. now apply IH.
Qed.

End Codes.

Lemma string_compare_refl (a : string) : String.compare a a = Eq.
Proof.
  pose proof (String.compare_antisym a a) as H.
  now destruct (String.compare a a).
Qed.

Lemma ascii_compare_refl (a : Ascii.ascii) : Ascii.compare a a = Eq.
Proof. apply N.compare_refl. Qed.

Lemma string_compare_trans (a : string) : forall b c,
  String.compare a b = Lt -> String.compare b c = Lt -> String.compare a c = Lt.
Proof.
  induction a as [| x a IH]; intros [| y b] [| z c]; simpl;
    try discriminate; try reflexivity.
  destruct (Ascii.compare x y) eqn:Exy; try discriminate;
    destruct (Ascii.compare y z) eqn:Eyz; try discriminate; intros H1 H2.
  - apply Ascii.compare_eq_iff in Exy, Eyz. subst.
    rewrite ascii_compare_refl. now apply (IH b c).
  - apply Ascii.compare_eq_iff in Exy. subst. now rewrite Eyz.
  - apply Ascii.compare_eq_iff in Eyz. subst. now rewrite Exy.
  - unfold Ascii.compare in *. rewrite N.compare_lt_iff in Exy, Eyz.
    assert (N.compare (Ascii.N_of_ascii x) (Ascii.N_of_ascii z) = Lt) as ->
      by (apply N.compare_lt_iff; lia).
    reflexivity.
Qed.

(** [LabelEncoder] on a column of strings: every code is the position of
    its string in [classes_], so decoding a code through [classes_] gives
    the string back and two rows get the same code exactly when they hold
    the same string; there are at most as many classes as rows. *)
Theorem LabelEncoder_codes_decode (v : list string) :
  let classes_ := np_unique String.compare v in
  Forall2 (fun x code =>
             exists n, code = Z.of_nat n
                       /\ (n < length classes_)%nat
                       /\ nth n classes_ ""%string = x)
          v (encode String.compare v)
  /\ (length classes_ <= length v)%nat.
Proof.
  intro classes_. split; [| apply np_unique_length].
  unfold encode. fold classes_. apply pointwise_on_map.
  apply List.Forall_forall. intros x I.
  exists (searchsorted String.compare x classes_). split; [reflexivity |].
  apply (searchsorted_nth String.compare String.compare_eq_iff
           string_compare_refl).
  now apply (np_unique_In String.compare String.compare_eq_iff).
Qed.

(** The classes of [LabelEncoder] are the distinct strings of the column in
    increasing byte-wise lexicographic order, without repetition, and the
    codes follow that order: a string that sorts before another gets the
    smaller code. *)
Theorem LabelEncoder_codes_follow_order (v : list string) (x y : string) :
  List.In x v ->
  List.In y v ->
  let classes_ := np_unique String.compare v in
  StronglySorted (fun a b => String.compare a b = Lt) classes_
  /\ List.NoDup classes_
  /\ (forall z, List.In z classes_ <-> List.In z v)
  /\ (String.compare x y = Lt ->
      (searchsorted String.compare x classes_
       < searchsorted String.compare y classes_)%nat)
  /\ (searchsorted String.compare x classes_
      = searchsorted String.compare y classes_ <-> x = y).
Proof.
  intros Ix Iy classes_.
  pose proof (np_unique_sorted String.compare String.compare_antisym
                string_compare_trans v) as S.
  pose proof (np_unique_In String.compare String.compare_eq_iff) as U.
  split; [exact S |]. split.
  { apply (sorted_NoDup String.compare string_compare_refl _ S). }
  split.
  { intro z. split; [apply In_np_unique | apply U]. }
  split.
  - apply (searchsorted_monotone String.compare string_compare_refl
             String.compare_antisym _ S); now apply U.
  - split; [| now intros ->]. intro E.
    destruct (searchsorted_nth String.compare String.compare_eq_iff
                string_compare_refl x ""%string classes_ (U x v Ix))
      as [_ Hx].
    destruct (searchsorted_nth String.compare String.compare_eq_iff
                string_compare_refl y ""%string classes_ (U y v Iy))
      as [_ Hy].
    fold classes_ in E. rewrite E in Hx. congruence.
Qed.

Lemma LabelEncoder_codes_follow_order_witness :
  encode String.compare ["tcp"; "icmp"; "tcp"; "udp"]%string
  = [1; 0; 1; 2]%Z
  /\ (searchsorted String.compare "icmp"
        (np_unique String.compare ["tcp"; "icmp"; "tcp"; "udp"])
      < searchsorted String.compare "tcp"
          (np_unique String.compare ["tcp"; "icmp"; "tcp"; "udp"]))%nat.
Proof.
  split; [reflexivity |].
  apply (LabelEncoder_codes_follow_order
           ["tcp"; "icmp"; "tcp"; "udp"]%string "icmp" "tcp").
  - right. now left.
  - now left.
  - reflexivity.
Defined.

(** ** Classes and supports of a report *)

Lemma count_where_fst (c : Z) (y_true : list Z) : forall y_pred,
  length y_true = length y_pred ->
  count_where (fun tp => Z.eqb (fst tp) c) (combine y_true y_pred)
  = count_occ Z.eq_dec y_true c.
Proof.
  unfold count_where.
  induction y_true as [| t y IH]; intros [| p y'] Hl; try discriminate;
    [reflexivity |].
  simpl in Hl. injection Hl as Hl. cbn [combine List.filter fst].
  destruct (Z.eqb_spec t c) as [-> | N].
  - rewrite count_occ_cons_eq by reflexivity. simpl. now rewrite IH.
  - rewrite count_occ_cons_neq by exact N. now apply IH.
Qed.

Lemma sum_indicator (x : Z) (classes : list Z) :
  list_sum (map (fun c => if Z.eq_dec x c then 1%nat else 0%nat) classes)
  = count_occ Z.eq_dec classes x.
Proof.
  induction classes as [| c l IH]; [reflexivity |].
  change (list_sum (map (fun c => if Z.eq_dec x c then 1%nat else 0%nat)
                        (c :: l)))
    with ((if Z.eq_dec x c then 1%nat else 0%nat)
          + list_sum (map (fun c => if Z.eq_dec x c then 1%nat else 0%nat) l))%nat.
  rewrite IH. destruct (Z.eq_dec x c) as [-> | N].
  - now rewrite count_occ_cons_eq.
  - rewrite count_occ_cons_neq by congruence. reflexivity.
Qed.

Lemma list_sum_cons_map {A} (f : A -> nat) (c : A) (l : list A) :
  list_sum (map f (c :: l)) = (f c + list_sum (map f l))%nat.
Proof. reflexivity. Qed.

Lemma sum_count_occ (classes y : list Z) :
  List.NoDup classes ->
  (forall x, List.In x y -> List.In x classes) ->
  list_sum (map (count_occ Z.eq_dec y) classes) = length y.
Proof.
  intros ND. induction y as [| x y IH]; intro H.
  - clear. induction classes as [| c l IHl]; [reflexivity | exact IHl].
  - assert (list_sum (map (count_occ Z.eq_dec (x :: y)) classes)
            = (list_sum (map (fun c => if Z.eq_dec x c then 1%nat else 0%nat)
                             classes)
               + list_sum (map (count_occ Z.eq_dec y) classes))%nat) as E.
    { clear. induction classes as [| c l IHl]; [reflexivity |].
      rewrite !list_sum_cons_map, IHl.
      destruct (Z.eq_dec x c) as [-> | N].
      - rewrite count_occ_cons_eq by reflexivity. lia.
      - rewrite count_occ_cons_neq by exact N. lia. }
    rewrite E, sum_indicator, IH by (intros z I; apply H; now right).
    assert (count_occ Z.eq_dec classes x = 1%nat) as ->.
    { apply NoDup_count_occ'; [exact ND | apply H; now left]. }
    reflexivity.
Qed.

Lemma Z_compare_trans (x y z : Z) :
  Z.compare x y = Lt -> Z.compare y z = Lt -> Z.compare x z = Lt.
Proof. rewrite !Z.compare_lt_iff. lia. Qed.

Lemma Z_classes (v : list Z) :
  StronglySorted (fun a b => Z.compare a b = Lt) (np_unique Z.compare v)
  /\ List.NoDup (np_unique Z.compare v)
  /\ forall x, List.In x (np_unique Z.compare v) <-> List.In x v.
Proof.
  pose proof (np_unique_sorted Z.compare
                (fun x y => Z.compare_antisym y x) Z_compare_trans v) as S.
  split; [exact S |]. split.
  - apply (sorted_NoDup Z.compare Z.compare_refl _ S).
  - intro x. split; [apply In_np_unique |].
    apply (np_unique_In Z.compare). intros a b. apply Z.compare_eq.
Qed.

(** For a non-empty ground truth and predictions of the same length, the
    report lists exactly the values occurring in either array, in
    increasing order, and the supports add up to the number of rows. *)
Theorem classification_report_supports (y_true y_pred : list Z) :
  y_true <> [] ->
  length y_true = length y_pred ->
  exists report,
    classification_report y_true y_pred = inr report
    /\ StronglySorted (fun a b => (a < b)%Z) (map class_label report)
    /\ (forall c, List.In c (map class_label report)
                  <-> List.In c y_true \/ List.In c y_pred)
    /\ list_sum (map support report) = length y_true.
Proof.
  intros N0 Hl. exists (report_of y_true y_pred).
  split; [now apply classification_report_ok |].
  destruct (Z_classes (y_true ++ y_pred)) as [S [ND U]].
  assert (map class_label (report_of y_true y_pred)
          = np_unique Z.compare (y_true ++ y_pred)) as Ec.
  { unfold report_of. rewrite map_map. apply map_id. }
  rewrite Ec. split; [| split].
  - exact S.
  - intro c. rewrite U. apply in_app_iff.
  - unfold report_of. rewrite map_map.
    rewrite (map_ext _ (count_occ Z.eq_dec y_true)).
    + apply sum_count_occ; [exact ND |].
      intros x I. apply U, in_app_iff. now left.
    + intro c. simpl. now apply count_where_fst.
Qed.

Lemma classification_report_supports_witness :
  exists report,
    classification_report [0; 1; 1]%Z [1; 1; 0]%Z = inr report
    /\ StronglySorted (fun a b => (a < b)%Z) (map class_label report)
    /\ (forall c, List.In c (map class_label report)
                  <-> List.In c [0; 1; 1]%Z \/ List.In c [1; 1; 0]%Z)
    /\ list_sum (map support report) = 3%nat.
Proof.
  apply (classification_report_supports [0; 1; 1]%Z [1; 1; 0]%Z).
  - discriminate.
  - reflexivity.
Defined.

